(** * OCRmyPDF: the progress pool executor and its log relay

    A shallow embedding of [src/ocrmypdf/_concurrent.py]: the two functions
    [log_listener] and [exec_progress_pool].  Python's exceptions, its
    [try]/[except]/[finally] and [with] statements are modelled by a small
    state-and-exception monad; calls into the libraries the module drives
    (multiprocessing, threading, logging, tqdm) are recorded as events of a
    trace, in program order. *)

From stdpp Require Import base option list strings gmap.
From Stdlib Require Import ZArith Permutation.

(** ** Python exceptions and control flow *)

Module Py.

(** Instances of [Exception] (and of its subclasses). *)
Inductive Exception :=
| StopIteration
| TypeError
| AttributeError
| ValueError
| RuntimeError (msg : string).

(** [BaseException]: the three built-in classes that are not subclasses of
    [Exception], and the instances of [Exception]. *)
Inductive BaseException :=
| KeyboardInterrupt
| SystemExit
| GeneratorExit
| Exc (e : Exception).

(** [isinstance(e, Exception)], the test of an [except Exception:] clause. *)
Definition is_Exception (e : BaseException) : bool :=
  match e with Exc _ => true | _ => false end.

(** How a statement ends: normally with a value, or by raising; or it does
    not end, the thread staying blocked for ever in one of its calls. *)
Inductive outcome (A : Type) :=
| Return (a : A)
| Raise (e : BaseException)
| Never.
Arguments Return {A} a.
Arguments Raise {A} e.
Arguments Never {A}.

(** A computation over a mutable world [W]. *)
Definition M (W A : Type) : Type := W -> outcome A * W.

Definition ret {W A} (a : A) : M W A := fun w => (Return a, w).

Definition raise {W A} (e : BaseException) : M W A := fun w => (Raise e, w).

(** A call that never returns. *)
Definition never {W A} : M W A := fun w => (Never, w).

Definition bind {W A B} (m : M W A) (k : A -> M W B) : M W B :=
  fun w =>
    match m w with
    | (Return a, w1) => k a w1
    | (Raise e, w1) => (Raise e, w1)
    | (Never, w1) => (Never, w1)
    end.

(** [try: body / except ...: handler].  [handler e] is [Some h] when one of
    the [except] clauses matches [e] ([h] is the body of the first one that
    does) and [None] when none does, in which case [e] propagates. *)
Definition try_except {W A} (body : M W A)
    (handler : BaseException -> option (M W A)) : M W A :=
  fun w =>
    match body w with
    | (Return a, w1) => (Return a, w1)
    | (Raise e, w1) =>
        match handler e with
        | Some h => h w1
        | None => (Raise e, w1)
        end
    | (Never, w1) => (Never, w1)
    end.

(** [try: body / finally: final]: [final] runs however [body] ends, and
    the outcome of [body] stands unless [final] raises itself.  When [body]
    does not end, [final] is not reached. *)
Definition try_finally {W A} (body : M W A) (final : M W unit) : M W A :=
  fun w =>
    match body w with
    | (Never, w1) => (Never, w1)
    | (o, w1) =>
        match final w1 with
        | (Return _, w2) => (o, w2)
        | (Raise e, w2) => (Raise e, w2)
        | (Never, w2) => (Never, w2)
        end
    end.

(** What the body of a [while True:] loop asks for next. *)
Inductive loop_control := Continue | Break.

End Py.
Export Py.

Declare Scope py_scope.
Delimit Scope py_scope with py.
Notation "x <- c1 ;; c2" := (bind c1 (fun x => c2))
  (at level 100, c1 at next level, c2 at level 200, right associativity) : py_scope.
Notation "c1 ;; c2" := (bind c1 (fun _ => c2))
  (at level 100, c2 at level 200, right associativity) : py_scope.
Open Scope py_scope.

(** ** The log relay: [log_listener] *)

(** A log record, as the logging package hands it over: the name of the
    logger it was emitted on, its level and its message. *)
Record LogRecord := {
  name : string;
  levelno : Z;
  msg : string;
}.

(** What a producer can put on the queue besides [None]: a log record, or
    any other picklable object (it has no attribute [name]). *)
Inductive pyobject :=
| ARecord (r : LogRecord)
| AnObject (repr : string).

(** Events of the listener thread. *)
Inductive log_event :=
| Queue_get (m : option pyobject)
| getLogger (logger_name : string)
| Logger_handle (logger_name : string) (r : LogRecord)
| stderr_print (s : string)
| print_exc (e : BaseException).

(** How the listener thread ends: its function returns, leaving the rest of
    the queue unread, or it stays blocked in [queue.get()] for ever because
    nothing more arrives.  (An exception that escapes the loop ends the
    thread as well: that is the [Raise] outcome.) *)
Inductive listener_exit :=
| Returned (unread : list (option pyobject))
| Blocked.

Section LogRelay.

(** The host's logging system: its state (handlers and their output) and
    what [logging.getLogger(name).handle(record)] does to it. *)
Context {Logging : Type}.
Variable handle : string -> LogRecord -> Logging -> Logging * option BaseException.

Record relay_world := {
  log_trace : list log_event;
  logging : Logging;
}.

Definition log (ev : log_event) : M relay_world unit :=
  fun w => (Return tt, {| log_trace := log_trace w ++ [ev]; logging := logging w |}).

(** [record.name] *)
Definition record_name (record : pyobject) : M relay_world string :=
  match record with
  | ARecord r => ret (name r)
  | AnObject _ => raise (Exc AttributeError)
  end.

(** [logger.handle(record)], for the logger called [logger]. *)
Definition logger_handle (logger : string) (record : pyobject) : M relay_world unit :=
  match record with
  | ARecord r =>
      fun w =>
        let (l, raised) := handle logger r (logging w) in
        let w1 := {| log_trace := log_trace w ++ [Logger_handle logger r]; logging := l |} in
        match raised with
        | None => (Return tt, w1)
        | Some e => (Raise e, w1)
        end
  | AnObject _ => raise (Exc AttributeError)
  end.

(** One turn of the loop, [m] being what [queue.get()] returns. *)
Definition log_listener_body (m : option pyobject) : M relay_world loop_control :=
  try_except
    (log (Queue_get m) ;;
     match m with
     | None => ret Break
     | Some record =>
         logger_name <- record_name record ;;
         log (getLogger logger_name) ;;
         logger_handle logger_name record ;;
         ret Continue
     end)
    (fun e =>
       match e with
       | Exc _ =>
           Some (log (stderr_print "Logging problem") ;;
                 log (print_exc e) ;;
                 ret Continue)
       | _ => None
       end).

(** [log_listener(queue)], [queue] being the messages that arrive, in
    order; [queue.get()] is taken to return each of them normally.  When
    they are used up and no [None] was among them, the listener waits. *)
Fixpoint log_listener (queue : list (option pyobject)) : M relay_world listener_exit :=
  match queue with
  | [] => ret Blocked
  | m :: queue' =>
      control <- log_listener_body m ;;
      match control with
      | Break => ret (Returned queue')
      | Continue => log_listener queue'
      end
  end.

(** The records handed to [Logger.handle], with the name of the logger each
    was handed to, in order. *)
Definition dispatched (tr : list log_event) : list (string * LogRecord) :=
  omap (fun ev => match ev with Logger_handle nm r => Some (nm, r) | _ => None end) tr.

(** The number of diagnostics written to [sys.stderr]. *)
Definition diagnostics (tr : list log_event) : nat :=
  length (omap (fun ev => match ev with stderr_print s => Some s | _ => None end) tr).

(** The messages ahead of the first [None]. *)
Fixpoint before_sentinel (queue : list (option pyobject)) : list pyobject :=
  match queue with
  | Some o :: queue' => o :: before_sentinel queue'
  | _ => []
  end.

(** The log records among some messages, each with its logger's name. *)
Definition records (l : list pyobject) : list (string * LogRecord) :=
  omap (fun o => match o with ARecord r => Some (name r, r) | AnObject _ => None end) l.

(** The number of messages of [l] whose processing raises, the logging
    system starting in the state [s]: those that are not records, and the
    records on which their logger's [handle] raises. *)
Fixpoint failures (l : list pyobject) (s : Logging) : nat :=
  match l with
  | [] => 0
  | AnObject _ :: l' => S (failures l' s)
  | ARecord r :: l' =>
      match handle (name r) r s with
      | (s', Some _) => S (failures l' s')
      | (s', None) => failures l' s'
      end
  end.

(** How the listener ends on [queue] when nothing escapes its loop: it
    returns at the first [None], or waits for ever if there is none. *)
Fixpoint after_sentinel (queue : list (option pyobject)) : listener_exit :=
  match queue with
  | [] => Blocked
  | None :: queue' => Returned queue'
  | Some _ :: queue' => after_sentinel queue'
  end.

(** The logging system raises nothing but instances of [Exception]. *)
Definition raises_only_Exception : Prop :=
  forall logger r s e, snd (handle logger r s) = Some e -> is_Exception e = true.

End LogRelay.

Arguments relay_world : clear implicits.

(** ** The pool executor: [exec_progress_pool] *)

(** [multiprocessing.dummy.Pool] and [multiprocessing.Pool]. *)
Inductive pool_class := ThreadPool | ProcessPool.

(** The keyword arguments of the progress display, [tqdm_kwargs]: the
    options of [tqdm] that the callers of the executor set.  [initial] is
    the count that the display starts from and [disable] switches the
    display off; a caller that leaves them out gets tqdm's defaults, 0 and
    [False]. *)
Record Kwargs := {
  total : option nat;
  desc : string;
  unit_name : string;
  initial : nat;
  disable : bool;
}.

(** The progress display, [tqdm]: the count it shows ([pbar.n]), and whether
    it is switched off ([pbar.disable]). *)
Record tqdm := { count : nat; disabled : bool }.

(** [tqdm(...)] with the keyword arguments [kwargs]: the display starts from
    [initial]. *)
Definition tqdm_new (kwargs : Kwargs) : tqdm :=
  {| count := initial kwargs; disabled := disable kwargs |}.

(** [pbar.update()]: one more, unless the display is switched off. *)
Definition update (pbar : tqdm) : tqdm :=
  if disabled pbar then pbar
  else {| count := S (count pbar); disabled := false |}.

(** What one call of [results.next()] delivers: the result of a task, or the
    exception to raise (the one a task raised, or the user's interrupt). *)
Definition completion (Result : Type) : Type := Result + BaseException.

Section Executor.

(** The caller's types: task inputs and results, the worker initializer
    and its fixed arguments. *)
Context {Input Result Initializer Arg : Type}.

(** An element of the pool's [initargs]. *)
Inductive initarg :=
| log_queue
| initarg_of (a : Arg).

(** Events of the control thread. *)
Inductive event :=
| Queue_new
| Thread_new
| Thread_start
| tqdm_enter (kwargs : Kwargs)
| Pool_new (cls : pool_class) (processes : Z)
    (initializer : option Initializer) (initargs : list initarg)
| Pool_imap_unordered (iterable : list Input)
| results_next (delivered : option (completion Result))
| results_next_blocks
| task_finished_call (result : Result) (raised : option BaseException)
| Pool_terminate
| Queue_put_nowait (obj : option pyobject)
| Pool_close
| Pool_join
| tqdm_exit
| Thread_join.

(** The world of the control thread: what it has done so far, and the
    display that [with tqdm(...) as pbar] binds. *)
Record exec_world := {
  trace : list event;
  pbar : tqdm;
}.

(** What the function does not decide: the process environment, the order
    in which the pool completes the tasks, and whether and when the user
    interrupts ([Some k]: while the control thread waits in its call
    number [k], from 0, of [results.next()]). *)
Record environment := {
  os_environ : gmap string string;
  arrival : list Input -> list Input;
  sigint : option nat;
}.

(** A call into a library that returns normally: it is added to the
    trace. *)
Definition emit (ev : event) : M exec_world unit :=
  fun w => (Return tt, {| trace := trace w ++ [ev]; pbar := pbar w |}).

(** [os.environ.get(key, default)] *)
Definition os_environ_get (env : environment) (key default : string) : string :=
  match os_environ env !! key with
  | Some v => v
  | None => default
  end.

(** [not s], for a string [s]. *)
Definition not_ (s : string) : bool := bool_decide (s = "").

(** [tqdm(...)], with the keyword arguments [kwargs]: a fresh display. *)
Definition tqdm_open (kwargs : Kwargs) : M exec_world unit :=
  fun w => (Return tt, {| trace := trace w ++ [tqdm_enter kwargs];
                          pbar := tqdm_new kwargs |}).

(** [with tqdm(...) as pbar: body]: the display is closed however [body]
    ends, and what [body] raises propagates. *)
Definition with_tqdm {A} (kwargs : Kwargs) (body : M exec_world A) : M exec_world A :=
  tqdm_open kwargs ;;
  try_finally body (emit tqdm_exit).

(** The starred expression of [(log_queue, *task_initargs)]: unpacking
    [None] raises. *)
Definition unpack (task_initargs : option (list Arg)) : M exec_world (list initarg) :=
  match task_initargs with
  | Some args => ret (map initarg_of args)
  | None => raise (Exc TypeError)
  end.

(** [pool_class(processes=..., initializer=..., initargs=...)]: the
    constructor of either pool raises [ValueError] when [processes] is less
    than 1. *)
Definition Pool (cls : pool_class) (processes : Z)
    (initializer : option Initializer) (initargs : list initarg) : M exec_world unit :=
  if (processes <? 1)%Z then raise (Exc ValueError)
  else emit (Pool_new cls processes initializer initargs).

(** What a worker of the pool does with the way a task ends: it sends back
    the result, or the instance of [Exception] that the task raised.  Any
    other exception ([SystemExit], [KeyboardInterrupt], [GeneratorExit]) is
    not caught in the worker, which ends: nothing is sent back for that
    task. *)
Definition sent_back (c : completion Result) : bool :=
  match c with
  | inl _ => true
  | inr (Exc _) => true
  | inr _ => false
  end.

(** The completions that the workers send back, in the order in which the
    tasks complete. *)
Definition deliveries (env : environment)
    (task : Input -> completion Result) (task_arguments : list Input)
    : list (completion Result) :=
  List.filter sent_back (map task (arrival env task_arguments)).

(** The iterator that [pool.imap_unordered] returns: what its calls of
    [next()] will deliver, in order ([pending]), and whether, these
    delivered, it waits for a completion that never comes ([starved])
    instead of being exhausted. *)
Record iterator := {
  pending : list (completion Result);
  starved : bool;
}.

(** [pool.imap_unordered(task, task_arguments)].  The iterator delivers
    what the workers send back; it is starved when a task has ended its
    worker without a completion.  An interrupt during the wait number [k]
    makes that call of [results.next()] raise [KeyboardInterrupt]. *)
Definition imap_unordered (env : environment)
    (task : Input -> completion Result) (task_arguments : list Input) : iterator :=
  let completions := map task (arrival env task_arguments) in
  {| pending :=
       match sigint env with
       | None => deliveries env task task_arguments
       | Some k => take k (deliveries env task task_arguments) ++ [inr KeyboardInterrupt]
       end;
     starved := negb (forallb sent_back completions) |}.

(** [results.next()], [delivered] being what the pool has for this call
    ([None]: nothing is left). *)
Definition next (delivered : option (completion Result)) : M exec_world Result :=
  emit (results_next delivered) ;;
  match delivered with
  | Some (inl result) => ret result
  | Some (inr e) => raise e
  | None => raise (Exc StopIteration)
  end.

(** [results.next()] on a starved iterator that has nothing more to
    deliver: the call does not return. *)
Definition next_blocks : M exec_world Result :=
  emit results_next_blocks ;;
  never.

Section Loop.

Variable task_finished : Result -> tqdm -> tqdm * option BaseException.

(** [task_finished(result, pbar)] *)
Definition call_task_finished (result : Result) : M exec_world unit :=
  fun w =>
    let (p, raised) := task_finished result (pbar w) in
    let w1 := {| trace := trace w ++ [task_finished_call result raised]; pbar := p |} in
    match raised with
    | None => (Return tt, w1)
    | Some e => (Raise e, w1)
    end.

(** One turn of the completion loop, [results_next] being what the call
    [results.next()] does on this turn. *)
Definition completion_loop_body (results_next : M exec_world Result) : M exec_world loop_control :=
  try_except
    (result <- results_next ;;
     call_task_finished result ;;
     ret Continue)
    (fun e =>
       match e with
       | Exc StopIteration => Some (ret Break)
       | _ => None
       end).

(** The completion loop, [while True: ...], over what the iterator still
    has to deliver ([results]) and whether it is starved after that. *)
Fixpoint completion_loop (starved : bool) (results : list (completion Result))
    : M exec_world unit :=
  match results with
  | [] =>
      completion_loop_body (if starved then next_blocks else next None) ;;
      ret tt
  | c :: results' =>
      control <- completion_loop_body (next (Some c)) ;;
      match control with
      | Break => ret tt
      | Continue => completion_loop starved results'
      end
  end.

End Loop.

(** [exec_progress_pool], statement by statement.  [env] is what the
    function finds around it.  [task_initargs] is [None], its default, or
    the caller's iterable.  [task], [task_arguments] and [task_finished] are
    what the caller passes: a task or a callback that cannot be called, as
    with their default [None], is one that raises [TypeError].  A task ends
    with its result or with the exception it raises; the callback receives
    the result and the display, leaves the display in a new state and may
    raise.  The calls of the [finally] clause, the constructors of the
    queue, the thread and the display, and the calls on the listener thread
    are taken to return normally. *)
Definition exec_progress_pool
    (env : environment)
    (use_threads : bool)
    (max_workers : Z)
    (tqdm_kwargs : Kwargs)
    (task_initializer : option Initializer)
    (task_initargs : option (list Arg))
    (task : Input -> completion Result)
    (task_arguments : list Input)
    (task_finished : Result -> tqdm -> tqdm * option BaseException)
    : M exec_world unit :=
  emit Queue_new ;;
  emit Thread_new ;;
  let pool_class := if use_threads then ThreadPool else ProcessPool in
  emit Thread_start ;;
  with_tqdm tqdm_kwargs
    (initargs <- unpack task_initargs ;;
     Pool pool_class max_workers task_initializer (log_queue :: initargs) ;;
     try_finally
       (try_except
          (emit (Pool_imap_unordered task_arguments) ;;
           let results := imap_unordered env task task_arguments in
           completion_loop task_finished (starved results) (pending results))
          (fun e =>
             match e with
             | KeyboardInterrupt =>
                 Some (emit Pool_terminate ;;
                       raise e)
             | Exc _ =>
                 Some ((if not_ (os_environ_get env "PYTEST_CURRENT_TEST" "")
                        then emit Pool_terminate
                        else ret tt) ;;
                       raise e)
             | _ => None
             end))
       (emit (Queue_put_nowait None) ;;
        emit Pool_close ;;
        emit Pool_join)) ;;
  emit Thread_join.

(** A call of the function from a fresh control thread; [pbar] is not
    bound before the [with] statement binds it. *)
Definition run (m : M exec_world unit) : outcome unit * exec_world :=
  m {| trace := []; pbar := {| count := 0; disabled := false |} |}.

(** *** Reading a trace *)

(** The exception that the call recorded by [ev] raised, if it raised:
    [results.next()] raises what the pool delivers to raise, and
    [StopIteration] when nothing is left; [task_finished] raises what it
    raises. *)
Definition raised_by (ev : event) : option BaseException :=
  match ev with
  | results_next None => Some (Exc StopIteration)
  | results_next (Some (inr e)) => Some e
  | task_finished_call _ (Some e) => Some e
  | _ => None
  end.

(** A call of the completion loop that returned normally. *)
Definition quiet (ev : event) : Prop :=
  match ev with
  | results_next (Some (inl _)) => True
  | task_finished_call _ None => True
  | _ => False
  end.

(** How the completion loop ends when one of its calls raises [e]. *)
Definition loop_exit (e : BaseException) : outcome unit :=
  match e with
  | Exc StopIteration => Return tt
  | _ => Raise e
  end.

(** What the [except] clauses of the function do, the completion loop
    having ended with [o]. *)
Definition handler_events (env : environment) (o : outcome unit) : list event :=
  match o with
  | Raise KeyboardInterrupt => [Pool_terminate]
  | Raise (Exc _) =>
      if not_ (os_environ_get env "PYTEST_CURRENT_TEST" "") then [Pool_terminate] else []
  | _ => []
  end.

(** The [finally] clause, and the end of the [with] block. *)
Definition cleanup : list event :=
  [Queue_put_nowait None; Pool_close; Pool_join; tqdm_exit].

(** What follows the [with] block. *)
Definition epilogue (o : outcome unit) : list event :=
  match o with
  | Return _ => [Thread_join]
  | _ => []
  end.

(** What the control thread does after the completion loop, the loop
    having ended with [o]: nothing, when the loop does not end. *)
Definition aftermath (env : environment) (o : outcome unit) : list event :=
  match o with
  | Never => []
  | _ => handler_events env o ++ cleanup ++ epilogue o
  end.

(** The call [last] ends the completion loop with [o]: it raises, or it
    never returns. *)
Definition ends_loop (last : event) (o : outcome unit) : Prop :=
  (exists e, raised_by last = Some e /\ o = loop_exit e)
  \/ (last = results_next_blocks /\ o = Never).

(** What precedes the completion loop. *)
Definition prologue (use_threads : bool) (max_workers : Z) (tqdm_kwargs : Kwargs)
    (task_initializer : option Initializer) (args : list Arg)
    (task_arguments : list Input) : list event :=
  [Queue_new; Thread_new; Thread_start; tqdm_enter tqdm_kwargs;
   Pool_new (if use_threads then ThreadPool else ProcessPool) max_workers
     task_initializer (log_queue :: map initarg_of args);
   Pool_imap_unordered task_arguments].

Definition is_task_finished_call (ev : event) : bool :=
  match ev with task_finished_call _ _ => true | _ => false end.
Definition is_sentinel_put (ev : event) : bool :=
  match ev with Queue_put_nowait None => true | _ => false end.
Definition is_Pool_close (ev : event) : bool :=
  match ev with Pool_close => true | _ => false end.
Definition is_Pool_join (ev : event) : bool :=
  match ev with Pool_join => true | _ => false end.
Definition is_tqdm_exit (ev : event) : bool :=
  match ev with tqdm_exit => true | _ => false end.
Definition is_Pool_new (ev : event) : bool :=
  match ev with Pool_new _ _ _ _ => true | _ => false end.
Definition is_tqdm_enter (ev : event) : bool :=
  match ev with tqdm_enter _ => true | _ => false end.
Definition is_Thread_new (ev : event) : bool :=
  match ev with Thread_new => true | _ => false end.
Definition is_Thread_start (ev : event) : bool :=
  match ev with Thread_start => true | _ => false end.
Definition is_Thread_join (ev : event) : bool :=
  match ev with Thread_join => true | _ => false end.
Definition is_Pool_terminate (ev : event) : bool :=
  match ev with Pool_terminate => true | _ => false end.

(** One of the three calls that shut the pool down. *)
Definition is_pool_shutdown (ev : event) : bool :=
  match ev with Pool_terminate | Pool_close | Pool_join => true | _ => false end.

(** The results that [task_finished] was called with, in order. *)
Definition delivered_results (tr : list event) : list Result :=
  omap (fun ev => match ev with task_finished_call r _ => Some r | _ => None end) tr.

(** The calls of a loop that delivers the results [rs] to the callback, no
    call raising. *)
Definition calls_of (rs : list Result) : list event :=
  flat_map (fun r => [results_next (Some (inl r)); task_finished_call r None]) rs.

(** The number of events of [tr] that [p] accepts. *)
Definition occurrences (p : event -> bool) (tr : list event) : nat :=
  length (List.filter p tr).

(** In [tr], an event that [a] accepts comes before every event that [b]
    accepts. *)
Definition precedes (a b : event -> bool) (tr : list event) : Prop :=
  forall before ev after,
    tr = before ++ ev :: after -> b ev = true -> existsb a before = true.

(** In [tr], no event that [a] accepts comes after an event that [b]
    accepts. *)
Definition never_after (a b : event -> bool) (tr : list event) : Prop :=
  forall before ev after,
    tr = before ++ ev :: after -> b ev = true -> existsb a after = false.

(** A checker for [precedes]: [seen] tells whether an event that [a] accepts
    has gone by. *)
Fixpoint precedesb (a b : event -> bool) (seen : bool) (tr : list event) : bool :=
  match tr with
  | [] => true
  | ev :: tr' => (if b ev then seen else true) && precedesb a b (seen || a ev) tr'
  end.

(** A checker for [never_after]. *)
Fixpoint never_afterb (a b : event -> bool) (tr : list event) : bool :=
  match tr with
  | [] => true
  | ev :: tr' => (if b ev then negb (existsb a tr') else true) && never_afterb a b tr'
  end.

(** A call made by the completion loop. *)
Definition loop_event (ev : event) : bool :=
  match ev with
  | results_next _ | results_next_blocks | task_finished_call _ _ => true
  | _ => false
  end.

(** The call creates a pool: [task_initargs] can be unpacked and the
    constructor of the pool accepts [max_workers]. *)
Definition creates_pool (task_initargs : option (list Arg)) (max_workers : Z) : bool :=
  match task_initargs with
  | Some _ => negb (max_workers <? 1)%Z
  | None => false
  end.

(** The call comes to an end: it returns or raises. *)
Definition ends {A} (o : outcome A) : bool :=
  match o with
  | Never => false
  | _ => true
  end.

(** What the control thread has put on the log queue, in order: this is
    what reaches the listener from it. *)
Definition queue_puts (tr : list event) : list (option pyobject) :=
  omap (fun ev => match ev with Queue_put_nowait obj => Some obj | _ => None end) tr.

(** One call of [task_finished] on the display. *)
Definition after_callback (task_finished : Result -> tqdm -> tqdm * option BaseException)
    (p : tqdm) (r : Result) : tqdm :=
  (task_finished r p).1.

End Executor.

Arguments initarg : clear implicits.
Arguments event : clear implicits.
Arguments exec_world : clear implicits.
Arguments environment : clear implicits.

(** ** A concrete run, used to exercise the model

    Four workers square the numbers 1 to 5; the callback advances the
    display by one for every result. *)

Module Scenario.

Definition square (x : nat) : completion nat := inl (x * x).

(** A task that fails on the input 3. *)
Definition square_but_3 (x : nat) : completion nat :=
  if bool_decide (x = 3) then inr (Exc ValueError) else inl (x * x).

Definition task_arguments : list nat := [1; 2; 3; 4; 5].

(** [tqdm_kwargs={'total': 5, 'desc': 'OCR', 'unit': 'page'}] *)
Definition five_pages : Kwargs :=
  {| total := Some 5; desc := "OCR"; unit_name := "page"; initial := 0; disable := false |}.

(** The same display, resumed at a count of 3 ([initial=3]). *)
Definition resumed_at_3 : Kwargs :=
  {| total := Some 5; desc := "OCR"; unit_name := "page"; initial := 3; disable := false |}.

(** The same display, switched off ([disable=True]). *)
Definition no_progress_bar : Kwargs :=
  {| total := Some 5; desc := "OCR"; unit_name := "page"; initial := 0; disable := true |}.

(** A task that calls [sys.exit()] on the input 3. *)
Definition square_exit_at_3 (x : nat) : completion nat :=
  if bool_decide (x = 3) then inr SystemExit else inl (x * x).

(** [task_initargs=()] *)
Definition no_initargs : option (list nat) := Some [].

(** [lambda result, pbar: pbar.update()] *)
Definition update_page (result : nat) (pbar : tqdm) : tqdm * option BaseException :=
  (update pbar, None).

(** [lambda result, pbar: None] *)
Definition ignore_result (result : nat) (pbar : tqdm) : tqdm * option BaseException :=
  (pbar, None).

(** A callback that raises [exc] on the result 4. *)
Definition raise_on_4 (exc : BaseException) (result : nat) (pbar : tqdm)
    : tqdm * option BaseException :=
  if bool_decide (result = 4) then (pbar, Some exc) else (update pbar, None).

(** The tasks complete in reverse order; nobody interrupts; not under
    pytest. *)
Definition outside_pytest : environment nat :=
  {| os_environ := ∅; arrival := @rev nat; sigint := None |}.

(** The same under pytest. *)
Definition under_pytest : environment nat :=
  {| os_environ := {[ "PYTEST_CURRENT_TEST" := "tests/test_concurrency.py::test_failure (call)" ]};
     arrival := @rev nat; sigint := None |}.

(** The user interrupts during the third wait for a completion. *)
Definition interrupted : environment nat :=
  {| os_environ := ∅; arrival := @rev nat; sigint := Some 2 |}.

(** A call of [exec_progress_pool] with [max_workers] process workers, the
    display options [tqdm_kwargs] and no worker initializer. *)
Definition call_with (max_workers : Z) (tqdm_kwargs : Kwargs)
    (env : environment nat) (task_initargs : option (list nat))
    (task : nat -> completion nat)
    (task_finished : nat -> tqdm -> tqdm * option BaseException)
    : outcome unit * exec_world nat nat unit nat :=
  run (exec_progress_pool env false max_workers tqdm_kwargs None task_initargs
         task task_arguments task_finished).

(** The call with four workers and the display of five pages. *)
Definition call : environment nat -> option (list nat) -> (nat -> completion nat) ->
    (nat -> tqdm -> tqdm * option BaseException) ->
    outcome unit * exec_world nat nat unit nat :=
  call_with 4 five_pages.

(** A logging system that keeps the messages it has output, and whose
    logger called [broken] raises. *)
Definition handle (logger : string) (r : LogRecord) (out : list string)
    : list string * option BaseException :=
  if bool_decide (logger = "broken") then (out, Some (Exc (RuntimeError "handler failed")))
  else (out ++ [msg r], None).

Definition rec1 : LogRecord := {| name := "ocrmypdf"; levelno := 20; msg := "page 1" |}.
Definition rec2 : LogRecord := {| name := "broken"; levelno := 40; msg := "page 2" |}.
Definition rec3 : LogRecord := {| name := "ocrmypdf.exec"; levelno := 30; msg := "page 3" |}.

Definition start : relay_world (list string) := {| log_trace := []; logging := [] |}.

(** Three records, the second on the logger that raises, and an object that
    is not a record. *)
Definition messages : list pyobject :=
  [ARecord rec1; ARecord rec2; AnObject "not a record"; ARecord rec3].

(** A task that raises [StopIteration] on the input 3. *)
Definition square_stop_at_3 (x : nat) : completion nat :=
  if bool_decide (x = 3) then inr (Exc StopIteration) else inl (x * x).

(** A logging system whose logger called [exit] raises [SystemExit]. *)
Definition handle_or_exit (logger : string) (r : LogRecord) (out : list string)
    : list string * option BaseException :=
  if bool_decide (logger = "exit") then (out, Some SystemExit)
  else (out ++ [msg r], None).

Definition rec4 : LogRecord := {| name := "exit"; levelno := 50; msg := "page 4" |}.

End Scenario.

(** ** Proof steps *)

Ltac py_unfold :=
  unfold bind, ret, raise, try_except, try_finally.

(** A class of events has no call of the completion loop in it. *)
Ltac not_loop_event := intros []; simpl; congruence.

(** The [except] clauses and what follows them, case by case. *)
Ltac exit_cases e :=
  unfold aftermath, handler_events, epilogue, cleanup, prologue;
  destruct e as [| | |[]]; cbn [loop_exit];
  try destruct (not_ _).

(** ** Facts about the completion loop *)

Section LoopFacts.

Context {Input Result Initializer Arg : Type}.

#[local] Abbreviation world := (exec_world Input Result Initializer Arg).
#[local] Abbreviation events := (list (event Input Result Initializer Arg)).

Variable task_finished : Result -> tqdm -> tqdm * option BaseException.

Lemma loop_exit_other e : e <> Exc StopIteration -> loop_exit e = Raise e.
Proof. destruct e as [| | |[]]; simpl; congruence. Qed.

(** A loop that one of its calls ends by raising has ended. *)
Lemma loop_exit_ends e : ends (loop_exit e) = true.
Proof. destruct e as [| | |[]]; reflexivity. Qed.

(** One turn of the loop on a result: the callback is called with it, and
    the turn ends as the callback does. *)
Lemma completion_loop_body_result (r : Result) (w : world) :
  completion_loop_body task_finished (next (Some (inl r))) w =
    let (p, raised) := task_finished r (pbar w) in
    let w1 := {| trace := trace w ++ [results_next (Some (inl r));
                                      task_finished_call r raised];
                 pbar := p |} in
    match raised with
    | None => (Return Continue, w1)
    | Some (Exc StopIteration) => (Return Break, w1)
    | Some e => (Raise e, w1)
    end.
Proof.
  unfold completion_loop_body, next, call_task_finished, emit. py_unfold. simpl.
  destruct (task_finished r (pbar w)) as [p [e|]]; simpl;
    rewrite <- ?app_assoc; simpl; [|reflexivity].
  destruct e as [| | |[]]; reflexivity.
Qed.

(** One turn of the loop on a delivered exception: it escapes, unless it
    is [StopIteration]. *)
Lemma completion_loop_body_raise (e : BaseException) (w : world) :
  completion_loop_body task_finished (next (Some (inr e))) w =
    let w1 := {| trace := trace w ++ [results_next (Some (inr e))]; pbar := pbar w |} in
    match e with
    | Exc StopIteration => (Return Break, w1)
    | _ => (Raise e, w1)
    end.
Proof.
  unfold completion_loop_body, next, call_task_finished, emit. py_unfold. simpl.
  destruct e as [| | |[]]; reflexivity.
Qed.

(** The turn on which nothing is left. *)
Lemma completion_loop_body_exhausted (w : world) :
  completion_loop_body task_finished (next None) w =
    (Return Break, {| trace := trace w ++ [results_next None]; pbar := pbar w |}).
Proof. reflexivity. Qed.

(** The turn on which the iterator waits for what never comes: the turn
    does not end. *)
Lemma completion_loop_body_blocks (w : world) :
  completion_loop_body task_finished next_blocks w =
    (Never, {| trace := trace w ++ [results_next_blocks]; pbar := pbar w |}).
Proof. reflexivity. Qed.

(** The loop makes calls that return normally and then one last call: a
    call that raises, the loop ending as that exception decides, or a call
    of [results.next()] that never returns. *)
Lemma completion_loop_spec (starved : bool) (results : list (completion Result))
    (w : world) :
  exists (calls : events) last,
    trace (completion_loop task_finished starved results w).2 = trace w ++ calls ++ [last]
    /\ Forall quiet calls
    /\ ends_loop last (completion_loop task_finished starved results w).1.
Proof.
  revert w. induction results as [|c results IH]; intros w.
  - destruct starved.
    + exists [], results_next_blocks. repeat split; [constructor|].
      right. split; reflexivity.
    + exists [], (results_next None). repeat split; [constructor|].
      left. exists (Exc StopIteration). split; reflexivity.
  - cbn [completion_loop]. unfold bind. destruct c as [r|e].
    + rewrite completion_loop_body_result.
      destruct (task_finished r (pbar w)) as [p [e|]] eqn:Hcb.
      * exists [results_next (Some (inl r))], (task_finished_call r (Some e)).
        assert (Hq : Forall quiet
                       ([results_next (Some (inl r))] : events))
          by (repeat constructor).
        destruct e as [| | |[]]; cbn [fst snd trace]; (split; [reflexivity|]);
          (split; [exact Hq|]); left; eexists; split; reflexivity.
      * cbv zeta iota beta.
        destruct (IH {| trace := trace w ++ [results_next (Some (inl r));
                                             task_finished_call r None];
                        pbar := p |}) as (calls & last & Htr & Hq & He).
        exists (results_next (Some (inl r)) :: task_finished_call r None :: calls), last.
        rewrite Htr. cbn [trace]. rewrite <- app_assoc. cbn [app].
        split; [reflexivity|]. split; [|exact He].
        repeat constructor; auto.
    + rewrite completion_loop_body_raise.
      exists [], (results_next (Some (inr e))).
      destruct e as [| | |[]]; cbn [fst snd trace app]; (split; [reflexivity|]);
        (split; [constructor|]); left; eexists; split; reflexivity.
Qed.

(** When every completion is a result and the callback never raises, the
    loop delivers each result in turn; it then ends on the exhausted
    iterator, or waits for ever on a starved one. *)
Lemma completion_loop_all_results (starved : bool) (rs : list Result) (w : world) :
  (forall r p, (task_finished r p).2 = None) ->
  completion_loop task_finished starved (map inl rs) w =
    (if starved then Never else Return tt,
     {| trace := trace w
                 ++ calls_of rs
                 ++ [if starved then results_next_blocks else results_next None];
        pbar := fold_left (fun p r => (task_finished r p).1) rs (pbar w) |}).
Proof.
  intros Hcb. revert w. induction rs as [|r rs IH]; intros w.
  - destruct starved; reflexivity.
  - cbn [completion_loop map]. unfold bind. rewrite completion_loop_body_result.
    specialize (Hcb r (pbar w)).
    destruct (task_finished r (pbar w)) as [p raised] eqn:E. simpl in Hcb. subst raised.
    cbv zeta iota beta. rewrite IH. unfold calls_of. cbn [trace pbar flat_map fold_left].
    rewrite E, <- app_assoc. reflexivity.
Qed.

(** What the workers send back of results is the results. *)
Lemma sent_back_results (rs : list Result) :
  List.filter sent_back (map inl rs) = (map inl rs : list (completion Result))
  /\ forallb sent_back (map inl rs : list (completion Result)) = true.
Proof.
  induction rs as [|r rs [IH1 IH2]]; [split; reflexivity|].
  cbn. rewrite IH1, IH2. split; reflexivity.
Qed.

End LoopFacts.

(** ** Facts about the executor *)

Section ExecutorFacts.

Context {Input Result Initializer Arg : Type}.

#[local] Abbreviation world := (exec_world Input Result Initializer Arg).
#[local] Abbreviation events := (list (event Input Result Initializer Arg)).

Variable env : environment Input.
Variable use_threads : bool.
Variable max_workers : Z.
Variable tqdm_kwargs : Kwargs.
Variable task_initializer : option Initializer.
Variable task : Input -> completion Result.
Variable task_arguments : list Input.
Variable task_finished : Result -> tqdm -> tqdm * option BaseException.

(** Once the pool exists, the function is: the prologue, the completion
    loop, and, when the loop ends, what the [except] clauses do with the way
    it ended, the [finally] clause and the end of the [with] block, and the
    join of the listener when nothing was raised. *)
Lemma exec_progress_pool_unfold (args : list Arg) (w : world) :
  (max_workers <? 1)%Z = false ->
  exec_progress_pool env use_threads max_workers tqdm_kwargs task_initializer
    (Some args) task task_arguments task_finished w =
  let w0 := {| trace := trace w ++ prologue use_threads max_workers tqdm_kwargs
                                     task_initializer args task_arguments;
               pbar := tqdm_new tqdm_kwargs |} in
  let (o, w1) := completion_loop task_finished
                   (starved (imap_unordered env task task_arguments))
                   (pending (imap_unordered env task task_arguments)) w0 in
  (o, {| trace := trace w1 ++ aftermath env o; pbar := pbar w1 |}).
Proof.
  intros Hw.
  unfold exec_progress_pool, with_tqdm, tqdm_open, unpack, Pool, emit, prologue.
  rewrite Hw. py_unfold.
  cbn [trace pbar]. rewrite <- !app_assoc. cbn [app].
  destruct (completion_loop _ _ _ _) as [[[]|e|] w1]; cbn [trace pbar aftermath].
  - rewrite <- !app_assoc. reflexivity.
  - unfold handler_events.
    destruct e as [| | |e]; try destruct (not_ _);
      cbn [trace pbar]; rewrite <- ?app_assoc; reflexivity.
  - destruct w1. cbn [trace pbar]. rewrite app_nil_r. reflexivity.
Qed.

(** A call that creates no pool: [task_initargs] is [None] and cannot be
    unpacked, or the constructor of the pool refuses [max_workers].  Either
    exception is raised inside the [with] block and before the [try]
    statement: the display is closed, and that is all. *)
Lemma exec_progress_pool_no_pool (task_initargs : option (list Arg)) :
  creates_pool task_initargs max_workers = false ->
  run (exec_progress_pool env use_threads max_workers tqdm_kwargs task_initializer
         task_initargs task task_arguments task_finished)
  = (Raise (Exc (match task_initargs with Some _ => ValueError | None => TypeError end)),
     {| trace := [Queue_new; Thread_new; Thread_start; tqdm_enter tqdm_kwargs; tqdm_exit];
        pbar := tqdm_new tqdm_kwargs |}).
Proof.
  destruct task_initargs as [args|]; cbn [creates_pool]; intros Hp.
  - apply negb_false_iff in Hp.
    unfold run, exec_progress_pool, with_tqdm, tqdm_open, unpack, Pool, emit.
    rewrite Hp. reflexivity.
  - reflexivity.
Qed.

Lemma creates_pool_true (task_initargs : option (list Arg)) :
  creates_pool task_initargs max_workers = true ->
  exists args, task_initargs = Some args /\ (max_workers <? 1)%Z = false.
Proof.
  destruct task_initargs as [args|]; cbn [creates_pool]; [|discriminate].
  intros Hp. apply negb_true_iff in Hp. eauto.
Qed.

Lemma at_least_one_worker : (1 <= max_workers)%Z -> (max_workers <? 1)%Z = false.
Proof. intros H. apply Z.ltb_ge. exact H. Qed.

(** The trace and the outcome of a call that creates the pool. *)
Lemma exec_progress_pool_run (args : list Arg) :
  (max_workers <? 1)%Z = false ->
  exists (calls : events) last o,
    Forall quiet calls
    /\ ends_loop last o
    /\ (run (exec_progress_pool env use_threads max_workers tqdm_kwargs
               task_initializer (Some args) task task_arguments task_finished)).1
       = o
    /\ trace (run (exec_progress_pool env use_threads max_workers tqdm_kwargs
                     task_initializer (Some args) task task_arguments task_finished)).2
       = prologue use_threads max_workers tqdm_kwargs task_initializer args task_arguments
         ++ calls ++ [last] ++ aftermath env o.
Proof.
  intros Hw. unfold run. rewrite (exec_progress_pool_unfold _ _ Hw). cbv zeta.
  match goal with |- context [completion_loop ?f ?s ?rs ?w0] =>
    destruct (completion_loop_spec f s rs w0) as (calls & last & Htr & Hq & He);
    destruct (completion_loop f s rs w0) as [o w1] end.
  cbn [fst snd] in *. exists calls, last, o.
  repeat split; auto. cbn [trace] in *. rewrite Htr, <- !app_assoc. reflexivity.
Qed.

(** *** Lists of events *)

Lemma occurrences_app (p : event Input Result Initializer Arg -> bool) (l1 l2 : events) :
  occurrences p (l1 ++ l2) = occurrences p l1 + occurrences p l2.
Proof. unfold occurrences. rewrite List.filter_app. apply length_app. Qed.

Lemma occurrences_none (p : event Input Result Initializer Arg -> bool) (l : events) :
  existsb p l = false -> occurrences p l = 0.
Proof.
  unfold occurrences. induction l as [|ev l IH]; simpl; [reflexivity|].
  destruct (p ev); simpl; [discriminate|exact IH].
Qed.

Lemma precedesb_none a b seen (l : events) :
  existsb b l = false -> precedesb a b seen l = true.
Proof.
  revert seen. induction l as [|ev l IH]; intros seen; simpl; [reflexivity|].
  destruct (b ev); simpl; [discriminate|]. apply IH.
Qed.

Lemma precedesb_app a b seen (l1 l2 : events) :
  precedesb a b seen (l1 ++ l2) =
  precedesb a b seen l1 && precedesb a b (seen || existsb a l1) l2.
Proof.
  revert seen. induction l1 as [|ev l1 IH]; intros seen; simpl.
  - rewrite orb_false_r. reflexivity.
  - rewrite IH, <- andb_assoc, orb_assoc. reflexivity.
Qed.

(** The checker is right. *)
Lemma precedesb_sound a b (tr : events) :
  precedesb a b false tr = true -> precedes a b tr.
Proof.
  intros H before ev after -> Hb.
  rewrite precedesb_app in H. apply andb_prop in H as [_ H]. simpl in H.
  rewrite Hb in H. apply andb_prop in H as [H _]. exact H.
Qed.

Lemma never_afterb_none a b (l : events) :
  existsb b l = false -> never_afterb a b l = true.
Proof.
  induction l as [|ev l IH]; simpl; [reflexivity|].
  destruct (b ev); simpl; [discriminate|]. apply IH.
Qed.

Lemma never_afterb_app a b (l1 l2 : events) :
  never_afterb a b (l1 ++ l2) =
  never_afterb a b l1 && never_afterb a b l2
  && (negb (existsb b l1) || negb (existsb a l2)).
Proof.
  induction l1 as [|ev l1 IH]; simpl.
  - rewrite andb_true_r. reflexivity.
  - rewrite IH, existsb_app.
    destruct (b ev), (existsb a l1), (existsb a l2), (existsb b l1),
      (never_afterb a b l1), (never_afterb a b l2); reflexivity.
Qed.

Lemma never_afterb_sound a b (tr : events) :
  never_afterb a b tr = true -> never_after a b tr.
Proof.
  intros H before ev after -> Hb.
  rewrite never_afterb_app in H. apply andb_prop in H as [H _].
  apply andb_prop in H as [_ H]. simpl in H. rewrite Hb in H.
  apply andb_prop in H as [H _]. apply negb_true_iff in H. exact H.
Qed.

(** *** The calls of the completion loop *)

Lemma quiet_loop_event (ev : event Input Result Initializer Arg) :
  quiet ev -> loop_event ev = true.
Proof. destruct ev; simpl; intros H; first [reflexivity|destruct H]. Qed.

Lemma quiet_not_raised (ev : event Input Result Initializer Arg) :
  quiet ev -> raised_by ev = None.
Proof.
  destruct ev as [| | | | | |[[]|]| |? []| | | | | |]; simpl; intros H;
    first [reflexivity|destruct H].
Qed.

Lemma raised_loop_event (ev : event Input Result Initializer Arg) e :
  raised_by ev = Some e -> loop_event ev = true.
Proof. destruct ev; simpl; congruence. Qed.

(** The call that ends the loop is a call of the loop. *)
Lemma ends_loop_loop_event (last : event Input Result Initializer Arg) o :
  ends_loop last o -> loop_event last = true.
Proof.
  intros [(e & Hr & _)|[-> _]]; [exact (raised_loop_event _ _ Hr)|reflexivity].
Qed.

(** A class of events that the completion loop does not produce occurs
    nowhere among its calls. *)
Lemma existsb_loop_calls (p : event Input Result Initializer Arg -> bool)
    (calls : events) last :
  (forall ev, loop_event ev = true -> p ev = false) ->
  Forall quiet calls -> loop_event last = true ->
  existsb p (calls ++ [last]) = false.
Proof.
  intros Hp Hq Hl. rewrite existsb_app. simpl.
  rewrite (Hp last Hl). simpl. rewrite orb_false_r.
  induction Hq as [|ev calls Hev _ IH]; simpl; [reflexivity|].
  rewrite (Hp ev (quiet_loop_event _ Hev)). exact IH.
Qed.

(** For the order of events that the loop does not produce, its calls can
    be left out of the trace. *)
Lemma precedesb_skip_loop a b (pro calls : events) last (post : events) :
  (forall ev, loop_event ev = true -> a ev = false) ->
  (forall ev, loop_event ev = true -> b ev = false) ->
  Forall quiet calls -> loop_event last = true ->
  precedesb a b false (pro ++ calls ++ [last] ++ post)
  = precedesb a b false (pro ++ post).
Proof.
  intros Ha Hb Hq Hl.
  pose proof (existsb_loop_calls a calls last Ha Hq Hl) as Hna.
  pose proof (existsb_loop_calls b calls last Hb Hq Hl) as Hnb.
  rewrite (app_assoc calls). set (mid := calls ++ [last]) in *.
  rewrite !precedesb_app, Hna, orb_false_r, (precedesb_none a b _ mid Hnb).
  reflexivity.
Qed.

Lemma never_afterb_skip_loop a b (pro calls : events) last (post : events) :
  (forall ev, loop_event ev = true -> a ev = false) ->
  (forall ev, loop_event ev = true -> b ev = false) ->
  Forall quiet calls -> loop_event last = true ->
  never_afterb a b (pro ++ calls ++ [last] ++ post) = never_afterb a b (pro ++ post).
Proof.
  intros Ha Hb Hq Hl.
  pose proof (existsb_loop_calls a calls last Ha Hq Hl) as Hna.
  pose proof (existsb_loop_calls b calls last Hb Hq Hl) as Hnb.
  rewrite (app_assoc calls). set (mid := calls ++ [last]) in *.
  rewrite !never_afterb_app, !existsb_app, Hna, Hnb, (never_afterb_none a b mid Hnb).
  simpl. rewrite andb_true_r. reflexivity.
Qed.

(** *** The classes of events that the completion loop does not produce *)

Lemma loop_not_Pool_new (ev : event Input Result Initializer Arg) :
  loop_event ev = true -> is_Pool_new ev = false.
Proof. revert ev. not_loop_event. Qed.

Lemma loop_not_tqdm_enter (ev : event Input Result Initializer Arg) :
  loop_event ev = true -> is_tqdm_enter ev = false.
Proof. revert ev. not_loop_event. Qed.

Lemma loop_not_tqdm_exit (ev : event Input Result Initializer Arg) :
  loop_event ev = true -> is_tqdm_exit ev = false.
Proof. revert ev. not_loop_event. Qed.

Lemma loop_not_Thread_new (ev : event Input Result Initializer Arg) :
  loop_event ev = true -> is_Thread_new ev = false.
Proof. revert ev. not_loop_event. Qed.

Lemma loop_not_Thread_start (ev : event Input Result Initializer Arg) :
  loop_event ev = true -> is_Thread_start ev = false.
Proof. revert ev. not_loop_event. Qed.

Lemma loop_not_Thread_join (ev : event Input Result Initializer Arg) :
  loop_event ev = true -> is_Thread_join ev = false.
Proof. revert ev. not_loop_event. Qed.

Lemma loop_not_Pool_close (ev : event Input Result Initializer Arg) :
  loop_event ev = true -> is_Pool_close ev = false.
Proof. revert ev. not_loop_event. Qed.

Lemma loop_not_Pool_join (ev : event Input Result Initializer Arg) :
  loop_event ev = true -> is_Pool_join ev = false.
Proof. revert ev. not_loop_event. Qed.

Lemma loop_not_sentinel_put (ev : event Input Result Initializer Arg) :
  loop_event ev = true -> is_sentinel_put ev = false.
Proof. revert ev. not_loop_event. Qed.

Lemma loop_not_Pool_terminate (ev : event Input Result Initializer Arg) :
  loop_event ev = true -> is_Pool_terminate ev = false.
Proof. revert ev. not_loop_event. Qed.

Lemma loop_not_pool_shutdown (ev : event Input Result Initializer Arg) :
  loop_event ev = true -> is_pool_shutdown ev = false.
Proof. revert ev. not_loop_event. Qed.

Create HintDb not_loop.
#[local] Hint Resolve loop_not_Pool_new loop_not_tqdm_enter loop_not_tqdm_exit
  loop_not_Thread_new loop_not_Thread_start loop_not_Thread_join
  loop_not_Pool_close loop_not_Pool_join loop_not_sentinel_put
  loop_not_Pool_terminate loop_not_pool_shutdown : not_loop.

(** For counting events that the loop does not produce, its calls can be
    left out of a trace of the shape that [exec_progress_pool_run] gives. *)
Lemma occurrences_shape (p : event Input Result Initializer Arg -> bool)
    (args : list Arg) (calls : events) last o :
  (forall ev, loop_event ev = true -> p ev = false) ->
  Forall quiet calls -> loop_event last = true ->
  occurrences p
    (prologue use_threads max_workers tqdm_kwargs task_initializer args task_arguments
     ++ calls ++ [last] ++ aftermath env o)
  = occurrences p
      (prologue use_threads max_workers tqdm_kwargs task_initializer args task_arguments
       ++ aftermath env o).
Proof.
  intros Hp Hq Hl.
  pose proof (occurrences_none p _ (existsb_loop_calls p calls last Hp Hq Hl)) as H0.
  rewrite (app_assoc calls). set (mid := calls ++ [last]) in *.
  rewrite !occurrences_app, H0. reflexivity.
Qed.

(** In a trace of the shape that [exec_progress_pool_run] gives, the only
    call that raised is the one that ended the loop. *)
Lemma raised_in_shape (args : list Arg) (calls : events) last o ev e :
  Forall quiet calls -> ends_loop last o ->
  In ev (prologue use_threads max_workers tqdm_kwargs task_initializer args task_arguments
         ++ calls ++ [last] ++ aftermath env o) ->
  raised_by ev = Some e ->
  ev = last /\ o = loop_exit e.
Proof.
  clear task task_finished. intros Hq He Hin Hev. rewrite !in_app_iff in Hin.
  destruct Hin as [H|[H|[H|H]]].
  - simpl in H. intuition (subst; discriminate).
  - rewrite List.Forall_forall in Hq. apply Hq, quiet_not_raised in H. congruence.
  - simpl in H. destruct H as [<-|[]].
    destruct He as [(e' & Hr & ->)|[-> _]]; [|discriminate Hev].
    split; congruence.
  - exfalso. destruct He as [(e' & Hr & ->)|[-> ->]]; [|destruct H].
    revert H. exit_cases e'; simpl; intros H; intuition (subst; discriminate).
Qed.

(** A call that creates no pool raises nothing in the completion loop. *)
Lemma raised_without_pool (task_initargs : option (list Arg)) ev e :
  creates_pool task_initargs max_workers = false ->
  In ev (trace (run (exec_progress_pool env use_threads max_workers
                       tqdm_kwargs task_initializer task_initargs task task_arguments
                       task_finished)).2) ->
  raised_by ev = Some e -> False.
Proof.
  intros Hp. rewrite (exec_progress_pool_no_pool _ Hp).
  simpl. intuition (subst; discriminate).
Qed.

(** *** The claims about the executor *)

(** C10.  With [task_initargs=None], the default, the call raises
    [TypeError] while it builds the pool's [initargs]: the listener has been
    started and the display opened and closed again, but no pool exists and
    no task has been submitted.  With an iterable for [task_initargs], and a
    number of workers that the pool accepts, the pool is created with
    [(log_queue, *task_initargs)] and the tasks are submitted. *)
Theorem exec_progress_pool_task_initargs_None :
  run (exec_progress_pool (Arg := Arg) env use_threads max_workers tqdm_kwargs
         task_initializer None task task_arguments task_finished)
  = (Raise (Exc TypeError),
     {| trace := [Queue_new; Thread_new; Thread_start; tqdm_enter tqdm_kwargs; tqdm_exit];
        pbar := tqdm_new tqdm_kwargs |})
  /\ forall args : list Arg,
       (1 <= max_workers)%Z ->
       exists rest,
         trace (run (exec_progress_pool env use_threads max_workers tqdm_kwargs
                       task_initializer (Some args) task task_arguments task_finished)).2
         = [Queue_new; Thread_new; Thread_start; tqdm_enter tqdm_kwargs;
            Pool_new (if use_threads then ThreadPool else ProcessPool) max_workers
              task_initializer (log_queue :: map initarg_of args);
            Pool_imap_unordered task_arguments] ++ rest.
Proof.
  split; [reflexivity|]. intros args Hw.
  destruct (exec_progress_pool_run args (at_least_one_worker Hw))
    as (calls & last & o & _ & _ & _ & ->).
  eexists. reflexivity.
Qed.

(** C8.  On every run, whatever the arguments: the listener thread is
    created and started, and the display opened, before the pool is created,
    and none of the three happens after it; the listener is joined only
    after the pool has been closed and joined, and the pool is neither
    closed nor joined after that.  A run that creates no pool or does not
    join the listener has nothing to order: a pool is created exactly when
    [task_initargs] is iterable and the pool accepts [max_workers], and the
    listener is joined exactly when the call returns. *)
Theorem exec_progress_pool_lifecycle_order (task_initargs : option (list Arg)) :
  let (o, w) := run (exec_progress_pool env use_threads max_workers tqdm_kwargs
                       task_initializer task_initargs task task_arguments task_finished) in
  (precedes is_Thread_new is_Pool_new (trace w)
   /\ precedes is_Thread_start is_Pool_new (trace w)
   /\ precedes is_tqdm_enter is_Pool_new (trace w)
   /\ precedes is_Pool_close is_Thread_join (trace w)
   /\ precedes is_Pool_join is_Thread_join (trace w))
  /\ (never_after is_Thread_new is_Pool_new (trace w)
      /\ never_after is_Thread_start is_Pool_new (trace w)
      /\ never_after is_tqdm_enter is_Pool_new (trace w)
      /\ never_after is_Pool_close is_Thread_join (trace w)
      /\ never_after is_Pool_join is_Thread_join (trace w))
  /\ existsb is_Pool_new (trace w) = creates_pool task_initargs max_workers
  /\ existsb is_Thread_join (trace w)
     = match o with Return _ => true | _ => false end.
Proof.
  destruct (creates_pool task_initargs max_workers) eqn:Hp.
  - apply creates_pool_true in Hp as (args & -> & Hw).
    destruct (exec_progress_pool_run args Hw) as (calls & last & o' & Hq & He & Ho & Htr).
    destruct (run _) as [o w]. cbn [fst snd] in Ho, Htr. subst o'. rewrite Htr.
    pose proof (ends_loop_loop_event _ _ He) as Hl.
    split; [|split; [|split]].
    + repeat split; apply precedesb_sound;
        (rewrite (precedesb_skip_loop _ _ _ calls last); auto with not_loop);
        (destruct He as [(e & _ & ->)|[_ ->]]; [exit_cases e|]); reflexivity.
    + repeat split; apply never_afterb_sound;
        (rewrite (never_afterb_skip_loop _ _ _ calls last); auto with not_loop);
        (destruct He as [(e & _ & ->)|[_ ->]]; [exit_cases e|]); reflexivity.
    + reflexivity.
    + rewrite (app_assoc calls), (existsb_app _ (prologue _ _ _ _ _ _)),
        (existsb_app _ (calls ++ [last])).
      rewrite (existsb_loop_calls is_Thread_join calls last); auto with not_loop.
      destruct He as [(e & _ & ->)|[_ ->]]; [exit_cases e|]; reflexivity.
  - rewrite (exec_progress_pool_no_pool _ Hp). cbn [trace].
    split; [|split; [|split]].
    + repeat split; apply precedesb_sound; reflexivity.
    + repeat split; apply never_afterb_sound; reflexivity.
    + reflexivity.
    + reflexivity.
Qed.

(** The trace of a call in which [ev] raised [e], [e] not being
    [StopIteration]: [ev] ended the loop, nothing before it shut the pool
    down or joined the listener, and what follows it is what the [except]
    clauses do for [e] and the clean-up; [e] reaches the caller. *)
Lemma exec_progress_pool_raised (task_initargs : option (list Arg)) ev e :
  e <> Exc StopIteration ->
  let (o, w) := run (exec_progress_pool env use_threads max_workers tqdm_kwargs
                       task_initializer task_initargs task task_arguments task_finished) in
  In ev (trace w) -> raised_by ev = Some e ->
  o = Raise e
  /\ exists before,
       trace w = before ++ [ev] ++ handler_events env (Raise e) ++ cleanup
       /\ existsb is_pool_shutdown before = false
       /\ existsb is_Thread_join before = false.
Proof.
  intros Hne. destruct (creates_pool task_initargs max_workers) eqn:Hp.
  - apply creates_pool_true in Hp as (args & -> & Hw).
    destruct (exec_progress_pool_run args Hw) as (calls & last & o' & Hq & He & Ho & Htr).
    destruct (run _) as [o w]. cbn [fst snd] in Ho, Htr. subst o'. intros Hin Hev.
    rewrite Htr in Hin.
    destruct (raised_in_shape args calls last o ev e Hq He Hin Hev) as [Hl Ho].
    subst last. rewrite (loop_exit_other e Hne) in Ho. subst o.
    split; [reflexivity|].
    exists (prologue use_threads max_workers tqdm_kwargs task_initializer args task_arguments
            ++ calls).
    rewrite Htr, <- !app_assoc, !existsb_app. cbn [aftermath epilogue].
    rewrite app_nil_r.
    assert (Hcalls : forall p : event Input Result Initializer Arg -> bool,
               (forall ev, loop_event ev = true -> p ev = false) ->
               existsb p calls = false).
    { intros p Hp.
      pose proof (existsb_loop_calls p calls ev Hp Hq (raised_loop_event _ _ Hev)) as H.
      rewrite existsb_app in H. apply orb_false_elim in H as [H _]. exact H. }
    rewrite !Hcalls by auto with not_loop. repeat split.
  - pose proof (raised_without_pool task_initargs ev e Hp) as H.
    destruct (run _) as [o w]. cbn [snd] in H. intros Hin Hev.
    destruct (H Hin Hev).
Qed.

(** C2, as amended.  If the user's interrupt arrives while the control
    thread waits in [results.next()], no further completion is fetched or
    delivered: the pool is terminated at once, then the sentinel is put on
    the listener's queue, the pool closed and joined and the display closed,
    and [KeyboardInterrupt] reaches the caller.  The listener thread is not
    joined on this path. *)
Theorem exec_progress_pool_interrupt (task_initargs : option (list Arg)) :
  let (o, w) := run (exec_progress_pool env use_threads max_workers tqdm_kwargs
                       task_initializer task_initargs task task_arguments task_finished) in
  In (results_next (Some (inr KeyboardInterrupt))) (trace w) ->
  o = Raise KeyboardInterrupt
  /\ (exists before,
        trace w = before ++ [results_next (Some (inr KeyboardInterrupt));
                             Pool_terminate;
                             Queue_put_nowait None; Pool_close; Pool_join; tqdm_exit])
  /\ existsb is_Thread_join (trace w) = false.
Proof.
  pose proof (exec_progress_pool_raised task_initargs
                (results_next (Some (inr KeyboardInterrupt))) KeyboardInterrupt) as H.
  destruct (run _) as [o w]. intros Hin.
  destruct H as (Ho & before & Htr & _ & Hj); [discriminate|exact Hin|reflexivity|].
  split; [exact Ho|]. rewrite Htr. split.
  - exists before. reflexivity.
  - rewrite existsb_app, Hj. reflexivity.
Qed.


(** C5, as amended.  On the interrupt path, and on the path of an instance
    of [Exception] other than [StopIteration] when [PYTEST_CURRENT_TEST] is
    unset or empty, the pool is terminated immediately: [pool.terminate()]
    is the first call after the one that raised and the first that shuts the
    pool down, and no completion is fetched or delivered after it.  The
    [finally] clause then still calls [pool.close()] and [pool.join()] on
    the terminated pool. *)
Theorem exec_progress_pool_abort (task_initargs : option (list Arg)) ev e :
  e = KeyboardInterrupt
  \/ (is_Exception e = true /\ e <> Exc StopIteration
      /\ os_environ_get env "PYTEST_CURRENT_TEST" "" = "") ->
  let (o, w) := run (exec_progress_pool env use_threads max_workers tqdm_kwargs
                       task_initializer task_initargs task task_arguments task_finished) in
  In ev (trace w) -> raised_by ev = Some e ->
  exists before,
    trace w = before ++ [ev; Pool_terminate;
                         Queue_put_nowait None; Pool_close; Pool_join; tqdm_exit]
    /\ existsb is_pool_shutdown before = false.
Proof.
  intros Hcase.
  pose proof (exec_progress_pool_raised task_initargs ev e) as H.
  destruct (run _) as [o w]. intros Hin Hev.
  destruct H as (Ho & before & Htr & Hs & _); [|exact Hin|exact Hev|].
  { destruct Hcase as [->|(_ & Hne & _)]; [discriminate|exact Hne]. }
  exists before. split; [|exact Hs]. rewrite Htr.
  destruct Hcase as [->|(He & _ & Hpy)]; [reflexivity|].
  destruct e as [| | |exc]; try discriminate He.
  cbn [handler_events]. unfold not_. rewrite bool_decide_eq_true_2 by exact Hpy.
  reflexivity.
Qed.

(** *** The run in which nothing is raised *)

(** Tasks that do not raise deliver results. *)
Lemma all_results (l : list Input) :
  (forall x, In x l -> exists r, task x = inl r) ->
  exists rs : list Result, map task l = map inl rs.
Proof.
  induction l as [|x l IH]; intros H.
  - exists []. reflexivity.
  - destruct (H x) as [r Hr]; [left; reflexivity|].
    destruct IH as [rs Hrs]; [intros y Hy; apply H; right; exact Hy|].
    exists (r :: rs). simpl. rewrite Hr, Hrs. reflexivity.
Qed.

(** When every task that completes returns, the iterator delivers the
    results, and it is not starved. *)
Lemma imap_unordered_results (rs : list Result) :
  map task (arrival env task_arguments) = map inl rs ->
  imap_unordered env task task_arguments
  = {| pending := match sigint env with
                  | None => map inl rs
                  | Some k => map inl (take k rs) ++ [inr KeyboardInterrupt]
                  end;
       starved := false |}.
Proof.
  intros Hrs. unfold imap_unordered, deliveries. rewrite Hrs.
  destruct (sent_back_results rs) as [-> ->].
  destruct (sigint env) as [k|]; [rewrite firstn_map|]; reflexivity.
Qed.

Lemma occurrences_calls_of (rs : list Result) :
  occurrences is_task_finished_call (calls_of rs : events) = length rs.
Proof.
  induction rs as [|r rs IH]; [reflexivity|].
  change (calls_of (r :: rs) : events)
    with ([results_next (Some (inl r)); task_finished_call r None] ++ calls_of rs : events).
  rewrite occurrences_app, IH. reflexivity.
Qed.

Lemma delivered_results_app (l1 l2 : events) :
  delivered_results (l1 ++ l2) = delivered_results l1 ++ delivered_results l2.
Proof. unfold delivered_results. apply omap_app. Qed.

Lemma delivered_results_calls_of (rs : list Result) :
  delivered_results (calls_of rs : events) = rs.
Proof.
  induction rs as [|r rs IH]; [reflexivity|].
  change (calls_of (r :: rs) : events)
    with ([results_next (Some (inl r)); task_finished_call r None] ++ calls_of rs : events).
  rewrite delivered_results_app, IH. reflexivity.
Qed.

(** A callback that advances the display by one for every result, and
    leaves it switched on or off as it was, leaves the count advanced by the
    number of results. *)
Lemma count_fold_left (rs : list Result) (p : tqdm) (d : bool) :
  (forall r p, disabled p = d ->
               count (task_finished r p).1 = S (count p)
               /\ disabled (task_finished r p).1 = disabled p) ->
  disabled p = d ->
  count (fold_left (fun p r => (task_finished r p).1) rs p) = count p + length rs.
Proof.
  intros Hcb. revert p. induction rs as [|r rs IH]; intros p Hd; simpl.
  - lia.
  - destruct (Hcb r p Hd) as [Hc Hd']. rewrite IH, Hc; [lia|congruence].
Qed.


End ExecutorFacts.

(** ** Facts about the log relay *)

Section RelayFacts.

Context {Logging : Type}.
Variable handle : string -> LogRecord -> Logging -> Logging * option BaseException.

(** The turn of the loop on the sentinel. *)
Lemma log_listener_body_None (w : relay_world Logging) :
  log_listener_body handle None w =
    (Return Break, {| log_trace := log_trace w ++ [Queue_get None]; logging := logging w |}).
Proof. reflexivity. Qed.

(** The turn on an object that is not a record: [record.name] raises, and
    the [except] clause reports it. *)
Lemma log_listener_body_object (repr : string) (w : relay_world Logging) :
  log_listener_body handle (Some (AnObject repr)) w =
    (Return Continue,
     {| log_trace := log_trace w ++ [Queue_get (Some (AnObject repr));
                                     stderr_print "Logging problem";
                                     print_exc (Exc AttributeError)];
        logging := logging w |}).
Proof.
  unfold log_listener_body, log. py_unfold. simpl.
  rewrite <- !app_assoc. reflexivity.
Qed.

(** The turn on a record: it goes to the logger of its name; what that
    logger raises, if it is an instance of [Exception], is reported and the
    loop goes on. *)
Lemma log_listener_body_record (r : LogRecord) (w : relay_world Logging) :
  log_listener_body handle (Some (ARecord r)) w =
    let (l, raised) := handle (name r) r (logging w) in
    let tr := log_trace w ++ [Queue_get (Some (ARecord r)); getLogger (name r);
                              Logger_handle (name r) r] in
    match raised with
    | None => (Return Continue, {| log_trace := tr; logging := l |})
    | Some (Exc exc) =>
        (Return Continue,
         {| log_trace := tr ++ [stderr_print "Logging problem"; print_exc (Exc exc)];
            logging := l |})
    | Some e => (Raise e, {| log_trace := tr; logging := l |})
    end.
Proof.
  unfold log_listener_body, logger_handle, record_name, log. py_unfold. simpl.
  destruct (handle (name r) r (logging w)) as [l [[| | |exc]|]]; simpl;
    rewrite <- !app_assoc; reflexivity.
Qed.

Lemma dispatched_app (l1 l2 : list log_event) :
  dispatched (l1 ++ l2) = dispatched l1 ++ dispatched l2.
Proof. apply omap_app. Qed.

Lemma diagnostics_app (l1 l2 : list log_event) :
  diagnostics (l1 ++ l2) = diagnostics l1 + diagnostics l2.
Proof. unfold diagnostics. rewrite omap_app. apply length_app. Qed.

(** As long as the logging system raises nothing but instances of
    [Exception], the listener leaves its loop at the first [None] and not
    before, hands every record ahead of it to the logger of its name, and
    writes one diagnostic for every message whose processing raised. *)
Lemma log_listener_spec (queue : list (option pyobject)) (w : relay_world Logging) :
  raises_only_Exception handle ->
  (log_listener handle queue w).1 = Return (after_sentinel queue)
  /\ dispatched (log_trace (log_listener handle queue w).2)
     = dispatched (log_trace w) ++ records (before_sentinel queue)
  /\ diagnostics (log_trace (log_listener handle queue w).2)
     = diagnostics (log_trace w) + failures handle (before_sentinel queue) (logging w).
Proof.
  intros Hexc. revert w. induction queue as [|m queue IH]; intros w.
  - simpl. rewrite app_nil_r. auto with arith.
  - cbn [log_listener]. unfold bind. destruct m as [[r|repr]|].
    + rewrite log_listener_body_record. cbn [before_sentinel after_sentinel failures].
      pose proof (Hexc (name r) r (logging w)) as He.
      destruct (handle (name r) r (logging w)) as [l [e|]]; cbn [snd] in He.
      * specialize (He e eq_refl). destruct e as [| | |exc]; try discriminate He.
        cbv zeta.
        match goal with |- context [log_listener handle queue ?w1] =>
          destruct (IH w1) as (Ho & Hd & Hn) end.
        rewrite Ho, Hd, Hn. cbn [log_trace logging].
        rewrite !dispatched_app, !diagnostics_app. cbn.
        rewrite !app_nil_r, <- !app_assoc. repeat split. lia.
      * cbv zeta.
        match goal with |- context [log_listener handle queue ?w1] =>
          destruct (IH w1) as (Ho & Hd & Hn) end.
        rewrite Ho, Hd, Hn. cbn [log_trace logging].
        rewrite !dispatched_app, !diagnostics_app. cbn.
        rewrite <- !app_assoc. repeat split. lia.
    + rewrite log_listener_body_object. cbn [before_sentinel after_sentinel failures].
      match goal with |- context [log_listener handle queue ?w1] =>
        destruct (IH w1) as (Ho & Hd & Hn) end.
      rewrite Ho, Hd, Hn. cbn [log_trace logging].
      rewrite !dispatched_app, !diagnostics_app. cbn.
      rewrite !app_nil_r. repeat split. lia.
    + rewrite log_listener_body_None.
      cbn [fst snd log_trace logging before_sentinel after_sentinel failures ret].
      rewrite dispatched_app, diagnostics_app. cbn. rewrite !app_nil_r. auto with arith.
Qed.

Lemma before_sentinel_app (pre : list pyobject) (post : list (option pyobject)) :
  before_sentinel (map Some pre ++ None :: post) = pre.
Proof. induction pre as [|o pre IH]; simpl; [reflexivity|]. rewrite IH. reflexivity. Qed.

Lemma after_sentinel_app (pre : list pyobject) (post : list (option pyobject)) :
  after_sentinel (map Some pre ++ None :: post) = Returned post.
Proof. induction pre as [|o pre IH]; simpl; [reflexivity|exact IH]. Qed.

Lemma after_sentinel_none (pre : list pyobject) :
  after_sentinel (map Some pre) = Blocked.
Proof. induction pre as [|o pre IH]; simpl; [reflexivity|exact IH]. Qed.

(** *** The claims about the log relay *)

(** C6, as amended.  The listener takes the messages one at a time.  On [None] it
    returns, leaving what follows unread.  A record it hands to the logger
    that the record names, and when that logger's [handle] returns it goes
    on to the next message.  So, the logging system raising nothing but
    instances of [Exception], which is what the listener's [except] clause
    catches: the listener returns at the first [None], and until a [None]
    arrives it waits; every record that arrives ahead of the first [None] is
    handed to its logger exactly once, in order of arrival, and no record is
    handed over besides these. *)
Theorem log_listener_dispatches_until_sentinel
    (pre : list pyobject) (post : list (option pyobject)) (w : relay_world Logging) :
  log_listener handle (None :: post) w
  = (Return (Returned post),
     {| log_trace := log_trace w ++ [Queue_get None]; logging := logging w |})
  /\ (forall r,
        (handle (name r) r (logging w)).2 = None ->
        log_listener handle (Some (ARecord r) :: post) w
        = log_listener handle post
            {| log_trace := log_trace w ++ [Queue_get (Some (ARecord r));
                                            getLogger (name r);
                                            Logger_handle (name r) r];
               logging := (handle (name r) r (logging w)).1 |})
  /\ (raises_only_Exception handle ->
      let (o, w') := log_listener handle (map Some pre ++ None :: post) w in
      o = Return (Returned post)
      /\ dispatched (log_trace w') = dispatched (log_trace w) ++ records pre
      /\ (log_listener handle (map Some pre) w).1 = Return Blocked).
Proof.
  split; [reflexivity|]. split.
  - intros r Hr. cbn [log_listener]. unfold bind.
    rewrite log_listener_body_record.
    destruct (handle (name r) r (logging w)) as [l raised]. cbn [fst snd] in *.
    subst raised. reflexivity.
  - intros Hexc.
    destruct (log_listener_spec (map Some pre ++ None :: post) w Hexc) as (Ho & Hd & _).
    destruct (log_listener_spec (map Some pre) w Hexc) as (Hb & _ & _).
    rewrite after_sentinel_none in Hb.
    rewrite after_sentinel_app in Ho. rewrite before_sentinel_app in Hd.
    destruct (log_listener handle (map Some pre ++ None :: post) w) as [o w'].
    auto.
Qed.

(** C7.  When processing a message raises an error, an instance of
    [Exception], be it that the record's logger raises or that the message
    is no record, the listener catches it, writes a diagnostic to
    [sys.stderr] and goes on with the next message.  So, for every sequence
    of messages, as long as what the logging system raises are errors:
    nothing is raised out of the listener; it returns at the first [None]
    and nowhere else, whatever the records before it did; it writes one
    diagnostic for every message ahead of the first [None] whose processing
    raised; and every record ahead of the first [None], those that follow a
    bad one included, is handed to its logger. *)
Theorem log_listener_survives_bad_records
    (queue : list (option pyobject)) (w : relay_world Logging) :
  (forall r exc,
     (handle (name r) r (logging w)).2 = Some (Exc exc) ->
     log_listener handle (Some (ARecord r) :: queue) w
     = log_listener handle queue
         {| log_trace := log_trace w ++ [Queue_get (Some (ARecord r));
                                         getLogger (name r);
                                         Logger_handle (name r) r;
                                         stderr_print "Logging problem";
                                         print_exc (Exc exc)];
            logging := (handle (name r) r (logging w)).1 |})
  /\ (forall repr,
        log_listener handle (Some (AnObject repr) :: queue) w
        = log_listener handle queue
            {| log_trace := log_trace w ++ [Queue_get (Some (AnObject repr));
                                            stderr_print "Logging problem";
                                            print_exc (Exc AttributeError)];
               logging := logging w |})
  /\ (raises_only_Exception handle ->
      let (o, w') := log_listener handle queue w in
      o = Return (after_sentinel queue)
      /\ diagnostics (log_trace w')
         = diagnostics (log_trace w)
           + failures handle (before_sentinel queue) (logging w)
      /\ dispatched (log_trace w')
         = dispatched (log_trace w) ++ records (before_sentinel queue)).
Proof.
  split; [|split].
  - intros r exc Hr. cbn [log_listener]. unfold bind.
    rewrite log_listener_body_record.
    destruct (handle (name r) r (logging w)) as [l raised]. cbn [fst snd] in *.
    subst raised. cbv zeta. rewrite <- app_assoc. reflexivity.
  - intros repr. cbn [log_listener]. unfold bind.
    rewrite log_listener_body_object. reflexivity.
  - intros Hexc. destruct (log_listener_spec queue w Hexc) as (Ho & Hd & Hn).
    destruct (log_listener handle queue w) as [o w']. auto.
Qed.

End RelayFacts.

(** ** Concrete runs *)

Module Runs.

Import Scenario.

(** The squares of 1 to 5, the callback advancing the display: five
    callbacks, and the display at 5. *)
Example squares_run :
  call outside_pytest no_initargs square update_page
  = (Return tt,
     {| trace := [Queue_new; Thread_new; Thread_start; tqdm_enter five_pages;
                  Pool_new ProcessPool 4 None [log_queue];
                  Pool_imap_unordered [1; 2; 3; 4; 5];
                  results_next (Some (inl 25)); task_finished_call 25 None;
                  results_next (Some (inl 16)); task_finished_call 16 None;
                  results_next (Some (inl 9)); task_finished_call 9 None;
                  results_next (Some (inl 4)); task_finished_call 4 None;
                  results_next (Some (inl 1)); task_finished_call 1 None;
                  results_next None;
                  Queue_put_nowait None; Pool_close; Pool_join; tqdm_exit;
                  Thread_join];
        pbar := {| count := 5; disabled := false |} |}).
Proof. reflexivity. Qed.

(** The same run on a display that was opened at 3: five callbacks, and
    the display at 8. *)
Example squares_run_resumed :
  let (o, w) := call_with 4 resumed_at_3 outside_pytest no_initargs square update_page in
  o = Return tt
  /\ occurrences is_task_finished_call (trace w) = 5
  /\ count (pbar w) = 8.
Proof. vm_compute. tauto. Qed.

(** The same run with the display switched off: five callbacks, each
    calling [pbar.update()], and a count that stays at 0. *)
Example squares_run_without_display :
  let (o, w) := call_with 4 no_progress_bar outside_pytest no_initargs square update_page in
  o = Return tt
  /\ occurrences is_task_finished_call (trace w) = 5
  /\ count (pbar w) = 0.
Proof. vm_compute. tauto. Qed.



(** C2 fails as stated: the interrupt arrives during the third wait, and
    the call ends without joining the listener thread. *)
Lemma interrupt_leaves_listener_unjoined :
  let (o, w) := call interrupted no_initargs square update_page in
  In (results_next (Some (inr KeyboardInterrupt))) (trace w)
  /\ o = Raise KeyboardInterrupt
  /\ existsb is_Thread_join (trace w) = false.
Proof. vm_compute. tauto. Qed.

Lemma exec_progress_pool_interrupt_witness :
  let (o, w) := call interrupted no_initargs square update_page in
  In (results_next (Some (inr KeyboardInterrupt))) (trace w)
  /\ o = Raise KeyboardInterrupt
  /\ (exists before,
        trace w = before ++ [results_next (Some (inr KeyboardInterrupt));
                             Pool_terminate;
                             Queue_put_nowait None; Pool_close; Pool_join; tqdm_exit])
  /\ existsb is_Thread_join (trace w) = false.
Proof.
  pose proof (exec_progress_pool_interrupt
                (Initializer := unit)
                interrupted false 4 five_pages None square task_arguments update_page
                no_initargs) as H.
  unfold call, call_with. destruct (run _) as [o w] eqn:E.
  vm_compute in E. injection E as <- <-.
  split; [simpl; tauto|]. apply H. simpl. tauto.
Defined.


(** Not under pytest, the callback raises [StopIteration] on the fourth
    result: the loop takes it for the end of the results, the pool is not
    terminated and the call returns as if nothing had been raised. *)
Lemma StopIteration_from_callback_is_swallowed :
  os_environ_get outside_pytest "PYTEST_CURRENT_TEST" "" = ""
  /\ let (o, w) := call outside_pytest no_initargs square (raise_on_4 (Exc StopIteration)) in
     In (task_finished_call 4 (Some (Exc StopIteration))) (trace w)
     /\ existsb is_Pool_terminate (trace w) = false
     /\ o = Return tt.
Proof. vm_compute. tauto. Qed.


(** C4 fails on the code.  With [task_initargs=None], the default, the
    call raises [TypeError]; with [task_initargs=()] and [max_workers=0] it
    raises [ValueError].  Either exception is one that neither a task nor
    the user raised, and either leaves the call after the listener thread
    was started and before the [try] statement is entered: the sentinel is
    not put on the queue, no pool is closed or joined and the listener is
    not joined; only the display is closed.  The listener, whatever reaches
    it from the workers, is left waiting in [queue.get()]. *)
Lemma no_cleanup_without_pool :
  (let (o, w) := call outside_pytest None square update_page in
   o = Raise (Exc TypeError)
   /\ existsb is_Thread_start (trace w) = true
   /\ occurrences is_sentinel_put (trace w) = 0
   /\ occurrences is_Pool_close (trace w) = 0
   /\ occurrences is_Pool_join (trace w) = 0
   /\ occurrences is_tqdm_exit (trace w) = 1
   /\ existsb is_Thread_join (trace w) = false
   /\ (log_listener handle (map Some messages ++ queue_puts (trace w)) start).1
      = Return Blocked)
  /\ (let (o, w) := call_with 0 five_pages outside_pytest no_initargs square update_page in
      o = Raise (Exc ValueError)
      /\ existsb is_Thread_start (trace w) = true
      /\ occurrences is_sentinel_put (trace w) = 0
      /\ occurrences is_Pool_close (trace w) = 0
      /\ occurrences is_Pool_join (trace w) = 0
      /\ occurrences is_tqdm_exit (trace w) = 1
      /\ existsb is_Thread_join (trace w) = false
      /\ (log_listener handle (map Some messages ++ queue_puts (trace w)) start).1
         = Return Blocked).
Proof. vm_compute. tauto. Qed.

(** C5 fails as stated: under pytest a task raises [ValueError]; on this
    error path the pool is not terminated, and it is joined. *)
Lemma error_path_under_pytest_joins_without_terminating :
  os_environ_get under_pytest "PYTEST_CURRENT_TEST" "" <> ""
  /\ let (o, w) := call under_pytest no_initargs square_but_3 update_page in
     o = Raise (Exc ValueError)
     /\ existsb is_Pool_terminate (trace w) = false
     /\ existsb is_Pool_join (trace w) = true.
Proof. vm_compute. split; [discriminate|tauto]. Qed.

Lemma exec_progress_pool_abort_witness :
  let (o, w) := call outside_pytest no_initargs square_but_3 update_page in
  (is_Exception (Exc ValueError) = true /\ Exc ValueError <> Exc StopIteration
   /\ os_environ_get outside_pytest "PYTEST_CURRENT_TEST" "" = "")
  /\ In (results_next (Some (inr (Exc ValueError)))) (trace w)
  /\ exists before,
       trace w = before ++ [results_next (Some (inr (Exc ValueError))); Pool_terminate;
                            Queue_put_nowait None; Pool_close; Pool_join; tqdm_exit]
       /\ existsb is_pool_shutdown before = false.
Proof.
  pose proof (exec_progress_pool_abort
                (Initializer := unit)
                outside_pytest false 4 five_pages None square_but_3 task_arguments update_page
                no_initargs (results_next (Some (inr (Exc ValueError))))
                (Exc ValueError)) as H.
  unfold call, call_with. destruct (run _) as [o w] eqn:E.
  vm_compute in E. injection E as <- <-.
  assert (Hcase : is_Exception (Exc ValueError) = true
                  /\ Exc ValueError <> Exc StopIteration
                  /\ os_environ_get outside_pytest "PYTEST_CURRENT_TEST" "" = "").
  { split; [reflexivity|]. split; [discriminate|reflexivity]. }
  split; [exact Hcase|]. split; [simpl; tauto|].
  apply H; [right; exact Hcase|simpl; tauto|reflexivity].
Defined.

Lemma exec_progress_pool_task_initargs_None_witness :
  call outside_pytest None square update_page
  = (Raise (Exc TypeError),
     {| trace := [Queue_new; Thread_new; Thread_start; tqdm_enter five_pages; tqdm_exit];
        pbar := {| count := 0; disabled := false |} |})
  /\ (1 <= 4)%Z
  /\ exists rest,
       trace (call outside_pytest no_initargs square update_page).2
       = [Queue_new; Thread_new; Thread_start; tqdm_enter five_pages;
          Pool_new ProcessPool 4 None [log_queue];
          Pool_imap_unordered task_arguments] ++ rest.
Proof.
  assert (Hw : (1 <= 4)%Z) by lia.
  pose proof (exec_progress_pool_task_initargs_None
                (Initializer := unit) (Arg := nat)
                outside_pytest false 4 five_pages None square task_arguments update_page)
    as [H1 H2].
  split; [exact H1|]. split; [exact Hw|].
  exact (H2 [] Hw).
Defined.

(** C6 fails as stated: the logger of the first record raises
    [SystemExit], which is not an instance of [Exception].  The listener's
    [except] clause does not catch it and the listener thread ends there:
    the second record, which reached the queue ahead of the sentinel, is
    never handed to its logger. *)
Lemma SystemExit_from_logger_ends_the_listener :
  let queue := [Some (ARecord rec4); Some (ARecord rec1); None] in
  let (o, w) := log_listener handle_or_exit queue start in
  before_sentinel queue = [ARecord rec4; ARecord rec1]
  /\ o = Raise SystemExit
  /\ dispatched (log_trace w) = [("exit", rec4)]
  /\ ~ In ("ocrmypdf", rec1) (dispatched (log_trace w)).
Proof.
  vm_compute. repeat split. intros [H|[]]. discriminate H.
Qed.

Lemma log_listener_dispatches_until_sentinel_witness :
  log_listener handle [Some (ARecord rec1); None; Some (ARecord rec3)] start
  = log_listener handle [None; Some (ARecord rec3)]
      {| log_trace := [Queue_get (Some (ARecord rec1)); getLogger "ocrmypdf";
                       Logger_handle "ocrmypdf" rec1];
         logging := ["page 1"] |}
  /\ raises_only_Exception handle
  /\ let (o, w) := log_listener handle (map Some messages ++ [None; Some (ARecord rec1)])
                     start in
     o = Return (Returned [Some (ARecord rec1)])
     /\ dispatched (log_trace w)
        = [("ocrmypdf", rec1); ("broken", rec2); ("ocrmypdf.exec", rec3)]
     /\ (log_listener handle (map Some messages) start).1 = Return Blocked.
Proof.
  assert (Hexc : raises_only_Exception handle).
  { intros logger r s e. unfold handle.
    destruct (bool_decide (logger = "broken")); simpl; intros [= <-]; reflexivity. }
  split; [|split; [exact Hexc|]].
  - refine (proj1 (proj2 (log_listener_dispatches_until_sentinel handle []
                            [None; Some (ARecord rec3)] start)) rec1 _).
    reflexivity.
  - exact (proj2 (proj2 (log_listener_dispatches_until_sentinel handle messages
                           [Some (ARecord rec1)] start)) Hexc).
Defined.

Lemma log_listener_survives_bad_records_witness :
  log_listener handle [Some (ARecord rec2); Some (ARecord rec3); None] start
  = log_listener handle [Some (ARecord rec3); None]
      {| log_trace := [Queue_get (Some (ARecord rec2)); getLogger "broken";
                       Logger_handle "broken" rec2;
                       stderr_print "Logging problem";
                       print_exc (Exc (RuntimeError "handler failed"))];
         logging := [] |}
  /\ raises_only_Exception handle
  /\ let (o, w) := log_listener handle (map Some messages ++ [None; Some (ARecord rec1)])
                     start in
     o = Return (Returned [Some (ARecord rec1)])
     /\ diagnostics (log_trace w) = 2
     /\ dispatched (log_trace w)
        = [("ocrmypdf", rec1); ("broken", rec2); ("ocrmypdf.exec", rec3)].
Proof.
  assert (Hexc : raises_only_Exception handle).
  { intros logger r s e. unfold handle.
    destruct (bool_decide (logger = "broken")); simpl; intros [= <-]; reflexivity. }
  split; [|split; [exact Hexc|]].
  - refine (proj1 (log_listener_survives_bad_records handle
                     [Some (ARecord rec3); None] start)
              rec2 (RuntimeError "handler failed") _).
    reflexivity.
  - exact (proj2 (proj2 (log_listener_survives_bad_records handle
                           (map Some messages ++ [None; Some (ARecord rec1)]) start))
             Hexc).
Defined.

End Runs.

(** ** More about the completion loop: what is delivered, and to whom *)

Section DeliveryFacts.

Context {Input Result Initializer Arg : Type}.

#[local] Abbreviation world := (exec_world Input Result Initializer Arg).
#[local] Abbreviation events := (list (event Input Result Initializer Arg)).

Variable task_finished : Result -> tqdm -> tqdm * option BaseException.

(** Whatever the completions and whatever the callback does, the loop calls
    the callback with the results that head the stream of completions, one
    after the other and none twice, and the display is what these calls
    leave of it. *)
Lemma completion_loop_delivers (starved : bool) (results : list (completion Result))
    (w : world) :
  exists rs : list Result,
    delivered_results (trace (completion_loop task_finished starved results w).2)
    = delivered_results (trace w) ++ rs
    /\ map inl rs `prefix_of` results
    /\ pbar (completion_loop task_finished starved results w).2
       = fold_left (after_callback task_finished) rs (pbar w).
Proof.
  revert w. induction results as [|c results IH]; intros w.
  - exists []. cbn [completion_loop]. unfold bind.
    destruct starved;
      [rewrite completion_loop_body_blocks|rewrite completion_loop_body_exhausted];
      cbn [fst snd trace pbar ret fold_left];
      rewrite delivered_results_app; repeat split; apply prefix_nil.
  - cbn [completion_loop]. unfold bind, completion. destruct c as [r|e].
    + rewrite (completion_loop_body_result task_finished r w).
      destruct (task_finished r (pbar w)) as [p [e|]] eqn:Hcb.
      * exists [r]. unfold after_callback. cbn [fold_left]. rewrite Hcb.
        destruct e as [| | |[]]; cbn [fst snd trace pbar ret];
          rewrite delivered_results_app;
          (repeat split; apply prefix_cons, prefix_nil).
      * cbv zeta iota beta.
        match goal with |- context [completion_loop task_finished starved results ?w1] =>
          destruct (IH w1) as (rs & Hd & Hp & Hb) end.
        exists (r :: rs). rewrite Hd, Hb. cbn [trace pbar]. split; [|split].
        -- rewrite delivered_results_app, <- app_assoc. reflexivity.
        -- apply prefix_cons, Hp.
        -- cbn [fold_left]. unfold after_callback at 3. rewrite Hcb. reflexivity.
    + rewrite (completion_loop_body_raise task_finished e w). exists [].
      destruct e as [| | |[]]; cbn [fst snd trace pbar ret fold_left];
        rewrite delivered_results_app; (repeat split; apply prefix_nil).
Qed.

(** Results, then a completion that makes [results.next()] raise: when the
    callback does not raise, the loop delivers the results, raises what is
    to raise, and never looks at what the pool has after it. *)
Lemma completion_loop_until_raise (starved : bool) (rs : list Result)
    (e : BaseException) (rest : list (completion Result)) (w : world) :
  (forall r p, (task_finished r p).2 = None) ->
  completion_loop task_finished starved (map inl rs ++ inr e :: rest) w
  = (loop_exit e,
     {| trace := trace w ++ calls_of rs ++ [results_next (Some (inr e))];
        pbar := fold_left (after_callback task_finished) rs (pbar w) |}).
Proof.
  intros Hcb. revert w. induction rs as [|r rs IH]; intros w.
  - cbn [map app completion_loop]. unfold bind, completion.
    rewrite completion_loop_body_raise.
    destruct e as [| | |[]]; reflexivity.
  - cbn [map app completion_loop]. unfold bind, completion.
    rewrite completion_loop_body_result.
    pose proof (Hcb r (pbar w)) as Hr.
    destruct (task_finished r (pbar w)) as [p raised] eqn:E. cbn [snd] in Hr.
    subst raised. cbv zeta iota beta. rewrite IH. unfold calls_of, after_callback.
    cbn [trace pbar flat_map fold_left]. rewrite E, <- app_assoc. reflexivity.
Qed.

(** Results that head a list which ends with an exception are results of
    the list before that exception. *)
Lemma prefix_of_results (rs : list Result) (l : list (completion Result)) e :
  map inl rs `prefix_of` l ++ [inr e] -> map inl rs `prefix_of` l.
Proof.
  revert l. induction rs as [|r rs IH]; intros l H; [apply prefix_nil|].
  destruct l as [|c l].
  - destruct H as [k Hk]. discriminate Hk.
  - destruct H as [k Hk]. cbn in Hk. injection Hk as Hc Hk. subst c.
    apply prefix_cons, IH. exists k. exact Hk.
Qed.

End DeliveryFacts.

(** ** More about the executor *)

Section ExecutorMoreFacts.

Context {Input Result Initializer Arg : Type}.

#[local] Abbreviation world := (exec_world Input Result Initializer Arg).
#[local] Abbreviation events := (list (event Input Result Initializer Arg)).

Variable env : environment Input.
Variable use_threads : bool.
Variable max_workers : Z.
Variable tqdm_kwargs : Kwargs.
Variable task_initializer : option Initializer.
Variable task : Input -> completion Result.
Variable task_arguments : list Input.
Variable task_finished : Result -> tqdm -> tqdm * option BaseException.

Create HintDb outside_loop.
#[local] Hint Resolve loop_not_Pool_new loop_not_tqdm_enter loop_not_tqdm_exit
  loop_not_Thread_new loop_not_Thread_start loop_not_Thread_join
  loop_not_Pool_close loop_not_Pool_join loop_not_sentinel_put
  loop_not_Pool_terminate loop_not_pool_shutdown : outside_loop.

#[local] Abbreviation the_call task_initargs :=
  (run (exec_progress_pool env use_threads max_workers tqdm_kwargs task_initializer
          task_initargs task task_arguments task_finished)).

(** The shape of the trace of a call that creates the pool. *)
Lemma the_call_run (args : list Arg) :
  (max_workers <? 1)%Z = false ->
  exists (calls : events) last o,
    Forall quiet calls
    /\ ends_loop last o
    /\ (the_call (Some args)).1 = o
    /\ trace (the_call (Some args)).2
       = prologue use_threads max_workers tqdm_kwargs task_initializer args task_arguments
         ++ calls ++ [last] ++ aftermath env o.
Proof. apply exec_progress_pool_run. Qed.

(** Nothing but the completion loop calls the callback. *)
Lemma delivered_results_outside_loop (args : list Arg) (o : outcome unit) :
  delivered_results
    (prologue use_threads max_workers tqdm_kwargs task_initializer args task_arguments
     : events) = []
  /\ delivered_results (aftermath env o : events) = [].
Proof.
  split; [reflexivity|].
  unfold aftermath, handler_events.
  destruct o as [[]|[| | |?]|]; try destruct (not_ _); reflexivity.
Qed.

Lemma occurrences_delivered (tr : events) :
  occurrences is_task_finished_call tr = length (delivered_results tr).
Proof.
  unfold occurrences, delivered_results.
  induction tr as [|ev tr IH]; [reflexivity|].
  destruct ev; cbn; rewrite ?IH; reflexivity.
Qed.

(** What a call that creates the pool delivers, and where it leaves the
    display. *)
Lemma exec_progress_pool_delivers (args : list Arg) :
  (max_workers <? 1)%Z = false ->
  exists rs : list Result,
    delivered_results (trace (the_call (Some args)).2) = rs
    /\ map inl rs `prefix_of` pending (imap_unordered env task task_arguments)
    /\ pbar (the_call (Some args)).2
       = fold_left (after_callback task_finished) rs (tqdm_new tqdm_kwargs).
Proof.
  intros Hw. unfold run. rewrite (exec_progress_pool_unfold _ _ _ _ _ _ _ _ _ _ Hw).
  cbv zeta.
  match goal with |- context [completion_loop ?f ?s ?rs ?w0] =>
    destruct (completion_loop_delivers f s rs w0) as (rs' & Hd & Hp & Hb);
    destruct (completion_loop f s rs w0) as [o w1] end.
  cbn [fst snd trace pbar] in *. exists rs'.
  rewrite delivered_results_app, Hd, delivered_results_app.
  destruct (delivered_results_outside_loop args o) as [-> ->].
  rewrite app_nil_r. repeat split; assumption.
Qed.

(** What [results.next()] delivers to raise is an instance of [Exception],
    which a task raised, or the user's interrupt. *)
Lemma pending_raises (e : BaseException) :
  In (inr e) (pending (imap_unordered env task task_arguments)) ->
  e = KeyboardInterrupt \/ is_Exception e = true.
Proof.
  assert (Hd : forall l : list (completion Result),
             In (inr e) (List.filter sent_back l) -> is_Exception e = true).
  { intros l H. apply List.filter_In in H as [_ H].
    destruct e; [discriminate..|reflexivity]. }
  unfold imap_unordered, deliveries. cbn [pending].
  destruct (sigint env) as [k|]; [|intros H; right; exact (Hd _ H)].
  rewrite in_app_iff. intros [H|[H|[]]].
  - right. apply (Hd (map task (arrival env task_arguments))).
    rewrite <- (take_drop k (List.filter _ _)), in_app_iff. left. exact H.
  - left. congruence.
Qed.

(** X1.  On every call, whatever the arguments and whatever is raised: the
    callback is called with results of tasks only, in the order in which
    the workers send them back and without skipping one, so what it has
    been called with heads the stream of the completions that are sent
    back; it is called at most once for every task that the pool
    completes. *)
Theorem callbacks_follow_arrival (task_initargs : option (list Arg)) :
  let (o, w) := run (exec_progress_pool env use_threads max_workers tqdm_kwargs
                       task_initializer task_initargs task task_arguments task_finished) in
  map inl (delivered_results (trace w)) `prefix_of` deliveries env task task_arguments
  /\ occurrences is_task_finished_call (trace w)
     <= length (arrival env task_arguments).
Proof.
  destruct (creates_pool task_initargs max_workers) eqn:Hc.
  - apply creates_pool_true in Hc as (args & -> & Hw).
    destruct (exec_progress_pool_delivers args Hw) as (rs & Hd & Hp & _).
    destruct (run _) as [o w]. cbn [snd] in Hd. rewrite occurrences_delivered, Hd.
    assert (H : map inl rs `prefix_of` deliveries env task task_arguments).
    { unfold imap_unordered in Hp. cbn [pending] in Hp.
      destruct (sigint env) as [k|]; [|exact Hp].
      apply prefix_of_results in Hp.
      etransitivity; [exact Hp|apply prefix_take]. }
    split; [exact H|].
    apply prefix_length in H. rewrite length_map in H.
    etransitivity; [exact H|]. unfold deliveries.
    etransitivity; [apply List.filter_length_le|]. rewrite length_map. reflexivity.
  - rewrite (exec_progress_pool_no_pool _ _ _ _ _ _ _ _ _ Hc). cbn.
    split; [apply prefix_nil|lia].
Qed.

(** X2.  On every call, the display ends as the calls of the callback have
    left it, from the state in which [tqdm] opened it (at the count
    [initial]) and in the order of the calls, the call that raised
    included: the executor itself never updates the display. *)
Theorem display_is_left_to_the_callback (task_initargs : option (list Arg)) :
  let (o, w) := run (exec_progress_pool env use_threads max_workers tqdm_kwargs
                       task_initializer task_initargs task task_arguments task_finished) in
  pbar w = fold_left (after_callback task_finished) (delivered_results (trace w))
             (tqdm_new tqdm_kwargs).
Proof.
  destruct (creates_pool task_initargs max_workers) eqn:Hc.
  - apply creates_pool_true in Hc as (args & -> & Hw).
    destruct (exec_progress_pool_delivers args Hw) as (rs & Hd & _ & Hb).
    destruct (run _) as [o w]. cbn [snd] in Hd, Hb. rewrite Hd. exact Hb.
  - rewrite (exec_progress_pool_no_pool _ _ _ _ _ _ _ _ _ Hc). reflexivity.
Qed.

(** A call whose completions are results and then an exception, the
    callback not raising. *)
Lemma exec_progress_pool_until_raise (args : list Arg) (rs : list Result)
    (e : BaseException) (rest : list (completion Result)) :
  (max_workers <? 1)%Z = false ->
  pending (imap_unordered env task task_arguments) = map inl rs ++ inr e :: rest ->
  (forall r p, (task_finished r p).2 = None) ->
  the_call (Some args)
  = (loop_exit e,
     {| trace := prologue use_threads max_workers tqdm_kwargs task_initializer args
                   task_arguments
                 ++ calls_of rs ++ [results_next (Some (inr e))]
                 ++ aftermath env (loop_exit e);
        pbar := fold_left (after_callback task_finished) rs (tqdm_new tqdm_kwargs) |}).
Proof.
  intros Hw Hres Hcb. unfold run.
  rewrite (exec_progress_pool_unfold _ _ _ _ _ _ _ _ _ _ Hw). cbv zeta.
  rewrite Hres, (completion_loop_until_raise task_finished _ rs e rest _ Hcb).
  cbn [trace pbar]. rewrite <- !app_assoc. reflexivity.
Qed.



(** X5.  When a pool is created, the user interrupts during the wait number
    [k], no task raises and the callback does not raise: the callback has
    been called with the first [k] results to arrive (with all of them, if
    fewer arrive), and [KeyboardInterrupt] reaches the caller. *)
Theorem interrupt_after_k_completions (args : list Arg) (k : nat) :
  (1 <= max_workers)%Z ->
  sigint env = Some k ->
  (forall x, In x (arrival env task_arguments) -> exists r, task x = inl r) ->
  (forall r p, (task_finished r p).2 = None) ->
  let (o, w) := run (exec_progress_pool env use_threads max_workers tqdm_kwargs
                       task_initializer (Some args) task task_arguments task_finished) in
  o = Raise KeyboardInterrupt
  /\ map inl (delivered_results (trace w))
     = take k (map task (arrival env task_arguments))
  /\ occurrences is_task_finished_call (trace w)
     = k `min` length (arrival env task_arguments).
Proof.
  intros Hw Hsig Htask Hcb.
  destruct (all_results task (arrival env task_arguments) Htask) as [rs Hrs].
  assert (Hres : pending (imap_unordered env task task_arguments)
                 = map inl (take k rs) ++ inr KeyboardInterrupt :: []).
  { rewrite (imap_unordered_results env task task_arguments rs Hrs), Hsig.
    reflexivity. }
  rewrite (exec_progress_pool_until_raise args (take k rs) KeyboardInterrupt []
             (at_least_one_worker _ Hw) Hres Hcb).
  split; [reflexivity|].
  cbn [trace loop_exit aftermath handler_events epilogue cleanup].
  rewrite occurrences_delivered, !delivered_results_app, delivered_results_calls_of.
  cbn. rewrite app_nil_r, Hrs, firstn_map. split; [reflexivity|].
  rewrite length_take, <- (length_map task), Hrs, length_map. reflexivity.
Qed.

(** X6.  With a pool created and no task to run, the pool delivering
    nothing and nobody interrupting: the first [results.next()] raises
    [StopIteration], neither the task nor the callback is ever called,
    whatever they would do, and the call goes through the whole clean-up and
    returns, the display as it was opened. *)
Theorem no_task_arguments (args : list Arg) :
  (1 <= max_workers)%Z ->
  Permutation (arrival env []) [] ->
  sigint env = None ->
  run (exec_progress_pool env use_threads max_workers tqdm_kwargs task_initializer
         (Some args) task [] task_finished)
  = (Return tt,
     {| trace := [Queue_new; Thread_new; Thread_start; tqdm_enter tqdm_kwargs;
                  Pool_new (if use_threads then ThreadPool else ProcessPool) max_workers
                    task_initializer (log_queue :: map initarg_of args);
                  Pool_imap_unordered [];
                  results_next None;
                  Queue_put_nowait None; Pool_close; Pool_join; tqdm_exit;
                  Thread_join];
        pbar := tqdm_new tqdm_kwargs |}).
Proof.
  intros Hw Hperm Hsig. apply Permutation_sym, Permutation_nil in Hperm.
  unfold run. rewrite (exec_progress_pool_unfold _ _ _ _ _ _ _ _ _ _ (at_least_one_worker _ Hw)).
  cbv zeta.
  unfold imap_unordered, deliveries. rewrite Hsig, Hperm. reflexivity.
Qed.

(** X7.  On every call, whatever the arguments: the display is opened
    exactly once; it is closed exactly once when the call returns or raises,
    and not at all when the call does not end; it is not closed before it
    was opened; and nothing is done to the pool or put on the log queue
    once the display is closed. *)
Theorem display_opened_and_closed_once (task_initargs : option (list Arg)) :
  let (o, w) := run (exec_progress_pool env use_threads max_workers tqdm_kwargs
                       task_initializer task_initargs task task_arguments task_finished) in
  occurrences is_tqdm_enter (trace w) = 1
  /\ occurrences is_tqdm_exit (trace w) = (if ends o then 1 else 0)
  /\ precedes is_tqdm_enter is_tqdm_exit (trace w)
  /\ never_after is_pool_shutdown is_tqdm_exit (trace w)
  /\ never_after is_sentinel_put is_tqdm_exit (trace w).
Proof.
  destruct (creates_pool task_initargs max_workers) eqn:Hc.
  - apply creates_pool_true in Hc as (args & -> & Hw).
    destruct (the_call_run args Hw) as (calls & last & o' & Hq & He & Ho & Htr).
    destruct (run _) as [o w]. cbn [fst snd] in Ho, Htr. subst o'. rewrite Htr.
    pose proof (ends_loop_loop_event _ _ He) as Hl.
    split; [|split; [|split; [|split]]].
    + rewrite (occurrences_shape env use_threads max_workers tqdm_kwargs task_initializer
                 task_arguments is_tqdm_enter args calls last o);
        auto with outside_loop.
      destruct He as [(e & _ & ->)|[_ ->]]; [exit_cases e|]; reflexivity.
    + rewrite (occurrences_shape env use_threads max_workers tqdm_kwargs task_initializer
                 task_arguments is_tqdm_exit args calls last o);
        auto with outside_loop.
      destruct He as [(e & _ & ->)|[_ ->]]; [exit_cases e|]; reflexivity.
    + apply precedesb_sound.
      rewrite (precedesb_skip_loop is_tqdm_enter is_tqdm_exit _ calls last);
        auto with outside_loop.
      destruct He as [(e & _ & ->)|[_ ->]]; [exit_cases e|]; reflexivity.
    + apply never_afterb_sound.
      rewrite (never_afterb_skip_loop is_pool_shutdown is_tqdm_exit _ calls last);
        auto with outside_loop.
      destruct He as [(e & _ & ->)|[_ ->]]; [exit_cases e|]; reflexivity.
    + apply never_afterb_sound.
      rewrite (never_afterb_skip_loop is_sentinel_put is_tqdm_exit _ calls last);
        auto with outside_loop.
      destruct He as [(e & _ & ->)|[_ ->]]; [exit_cases e|]; reflexivity.
  - rewrite (exec_progress_pool_no_pool _ _ _ _ _ _ _ _ _ Hc). cbn [trace ends].
    repeat split; first [apply precedesb_sound|apply never_afterb_sound]; reflexivity.
Qed.


(** X13.  Once the pool has been created, that is when [task_initargs] is
    iterable and the pool accepts [max_workers], and when the call comes to
    an end: the call returns, or it raises an exception that
    [results.next()] or the callback raised, the interrupt or another; and
    before it does either, the sentinel has been put on the queue exactly
    once, the pool closed and joined exactly once each and the display
    closed exactly once, in this order, nothing but the join of the listener
    on a normal return coming after. *)
Theorem cleanup_when_the_call_ends (args : list Arg) :
  (1 <= max_workers)%Z ->
  let (o, w) := run (exec_progress_pool env use_threads max_workers tqdm_kwargs
                       task_initializer (Some args) task task_arguments task_finished) in
  ends o = true ->
  (o = Return tt
   \/ (o = Raise KeyboardInterrupt
       /\ exists ev, In ev (trace w) /\ raised_by ev = Some KeyboardInterrupt)
   \/ (exists e ev, e <> KeyboardInterrupt /\ o = Raise e
                    /\ In ev (trace w) /\ raised_by ev = Some e))
  /\ occurrences is_sentinel_put (trace w) = 1
  /\ occurrences is_Pool_close (trace w) = 1
  /\ occurrences is_Pool_join (trace w) = 1
  /\ occurrences is_tqdm_exit (trace w) = 1
  /\ exists before,
       trace w = before ++ [Queue_put_nowait None; Pool_close; Pool_join; tqdm_exit]
                        ++ epilogue o.
Proof.
  intros Hw.
  destruct (the_call_run args (at_least_one_worker _ Hw))
    as (calls & last & o' & Hq & He & Ho & Htr).
  destruct (run _) as [o w]. cbn [fst snd] in Ho, Htr. subst o'. intros Hend.
  pose proof (ends_loop_loop_event _ _ He) as Hl.
  destruct He as [(e & Hr & ->)|[_ ->]]; [|discriminate Hend].
  assert (Hin : In last (trace w)).
  { rewrite Htr, !in_app_iff. simpl. auto. }
  split; [|rewrite Htr; repeat split].
  - destruct e as [| | |[]]; cbn [loop_exit];
      first [ left; reflexivity
            | right; left; split; [reflexivity|exists last; auto]
            | right; right; eexists _, last; repeat split;
              [discriminate|assumption|assumption] ].
  - rewrite (occurrences_shape env use_threads max_workers tqdm_kwargs task_initializer
               task_arguments is_sentinel_put args calls last);
      auto with outside_loop.
    exit_cases e; reflexivity.
  - rewrite (occurrences_shape env use_threads max_workers tqdm_kwargs task_initializer
               task_arguments is_Pool_close args calls last);
      auto with outside_loop.
    exit_cases e; reflexivity.
  - rewrite (occurrences_shape env use_threads max_workers tqdm_kwargs task_initializer
               task_arguments is_Pool_join args calls last);
      auto with outside_loop.
    exit_cases e; reflexivity.
  - rewrite (occurrences_shape env use_threads max_workers tqdm_kwargs task_initializer
               task_arguments is_tqdm_exit args calls last);
      auto with outside_loop.
    exit_cases e; reflexivity.
  - exists (prologue use_threads max_workers tqdm_kwargs task_initializer args task_arguments
            ++ calls ++ [last] ++ handler_events env (loop_exit e)).
    pose proof (loop_exit_ends e) as Hle.
    unfold aftermath, cleanup. destruct (loop_exit e); [| |discriminate Hle];
      rewrite <- !app_assoc; reflexivity.
Qed.

(** X14.  A task that ends its worker with an exception that is not an
    instance of [Exception] (a task that calls [sys.exit()], say) blocks the
    call for ever.  When a pool is created, nobody interrupts, the other
    tasks return and the callback does not raise: the callback is called
    with the results of the other tasks, and the next [results.next()] never
    returns.  The call neither returns nor raises: the [finally] clause is
    not reached, so the sentinel is not put on the queue, the pool is not
    terminated, closed or joined, and the display is not closed. *)
Theorem lost_task_blocks_the_call (args : list Arg) (rs : list Result) (x : Input) :
  (1 <= max_workers)%Z ->
  sigint env = None ->
  In x (arrival env task_arguments) ->
  sent_back (task x) = false ->
  deliveries env task task_arguments = map inl rs ->
  (forall r p, (task_finished r p).2 = None) ->
  let (o, w) := run (exec_progress_pool env use_threads max_workers tqdm_kwargs
                       task_initializer (Some args) task task_arguments task_finished) in
  o = Never
  /\ trace w = prologue use_threads max_workers tqdm_kwargs task_initializer args
                 task_arguments
               ++ calls_of rs ++ [results_next_blocks]
  /\ delivered_results (trace w) = rs
  /\ existsb is_sentinel_put (trace w) = false
  /\ existsb is_pool_shutdown (trace w) = false
  /\ existsb is_tqdm_exit (trace w) = false
  /\ existsb is_Thread_join (trace w) = false.
Proof.
  intros Hw Hsig Hx Hlost Hdel Hcb.
  assert (Hst : starved (imap_unordered env task task_arguments) = true).
  { unfold imap_unordered. cbn [starved]. apply negb_true_iff.
    destruct (forallb _ _) eqn:Hall; [|reflexivity].
    rewrite List.forallb_forall in Hall.
    rewrite <- Hlost. symmetry. apply Hall, in_map, Hx. }
  assert (Hpe : pending (imap_unordered env task task_arguments) = map inl rs).
  { unfold imap_unordered. cbn [pending]. rewrite Hsig. exact Hdel. }
  unfold run. rewrite (exec_progress_pool_unfold _ _ _ _ _ _ _ _ _ _ (at_least_one_worker _ Hw)).
  cbv zeta. rewrite Hst, Hpe.
  rewrite (completion_loop_all_results task_finished true rs _ Hcb).
  cbn [trace pbar aftermath]. rewrite app_nil_r.
  assert (Hnone : forall p : event Input Result Initializer Arg -> bool,
             (forall ev, loop_event ev = true -> p ev = false) ->
             existsb p (calls_of rs ++ [results_next_blocks] : events) = false).
  { intros p Hp. rewrite existsb_app. cbn. rewrite (Hp results_next_blocks eq_refl).
    rewrite orb_false_r. clear -Hp. induction rs as [|r l IH]; [reflexivity|].
    cbn. rewrite (Hp (results_next (Some (inl r))) eq_refl),
           (Hp (task_finished_call r None) eq_refl). exact IH. }
  split; [reflexivity|]. split; [reflexivity|]. split.
  { rewrite !delivered_results_app, delivered_results_calls_of. cbn.
    apply app_nil_r. }
  repeat split; rewrite existsb_app, Hnone by auto with outside_loop; reflexivity.
Qed.

End ExecutorMoreFacts.

(** ** More about the log relay *)

Section RelayMoreFacts.

Context {Logging : Type}.
Variable handle : string -> LogRecord -> Logging -> Logging * option BaseException.

(** The turn of the loop on a message that is not the sentinel does not
    leave the loop. *)
Lemma log_listener_body_Some_not_Break (o : pyobject) (w w' : relay_world Logging) :
  log_listener_body handle (Some o) w <> (Return Break, w').
Proof.
  destruct o as [r|repr].
  - rewrite log_listener_body_record.
    destruct (handle (name r) r (logging w)) as [l [[| | |exc]|]]; discriminate.
  - rewrite log_listener_body_object. discriminate.
Qed.

(** Messages taken, the listener goes on from where it stands. *)
Lemma log_listener_app
    (pre : list pyobject) (queue : list (option pyobject))
    (w w1 : relay_world Logging) :
  log_listener handle (map Some pre) w = (Return Blocked, w1) ->
  log_listener handle (map Some pre ++ queue) w = log_listener handle queue w1.
Proof.
  revert w. induction pre as [|o pre IH]; intros w H.
  - cbn in H. injection H as <-. reflexivity.
  - cbn [map app log_listener] in *. unfold bind in *.
    pose proof (log_listener_body_Some_not_Break o w) as Hnb.
    destruct (log_listener_body handle (Some o) w) as [[[]|e|] w'].
    + apply IH. exact H.
    + destruct (Hnb w' eq_refl).
    + discriminate H.
    + discriminate H.
Qed.

(** X9.  What a logger raises that is not an instance of [Exception] (a
    [SystemExit], say) is not caught.  Wherever in the stream of messages
    the record stands, the messages before it having been taken: the
    exception ends the listener there, no diagnostic is written for it, and
    what is on the queue after that record, the sentinel included, is never
    read. *)
Theorem log_listener_killed_by_non_Exception
    (pre : list pyobject) (r : LogRecord) (e : BaseException)
    (queue : list (option pyobject)) (w w1 : relay_world Logging) :
  log_listener handle (map Some pre) w = (Return Blocked, w1) ->
  (handle (name r) r (logging w1)).2 = Some e ->
  is_Exception e = false ->
  log_listener handle (map Some pre ++ Some (ARecord r) :: queue) w
  = (Raise e,
     {| log_trace := log_trace w1 ++ [Queue_get (Some (ARecord r)); getLogger (name r);
                                      Logger_handle (name r) r];
        logging := (handle (name r) r (logging w1)).1 |}).
Proof.
  intros Hpre Hr He. rewrite (log_listener_app pre _ w w1 Hpre).
  cbn [log_listener]. unfold bind. rewrite log_listener_body_record.
  destruct (handle (name r) r (logging w1)) as [l raised]. cbn [fst snd] in *.
  subst raised. destruct e as [| | |exc]; try discriminate He; reflexivity.
Qed.

(** X10.  The listener works through the queue message by message: once it
    has taken some messages, none of them the sentinel, and waits for the
    next, what it does with the messages that follow is what it would do
    with them alone, from the state it has reached.  In particular the
    sentinel ends it there, with what it has handed over so far. *)
Theorem log_listener_resumes
    (pre : list pyobject) (queue : list (option pyobject))
    (w w1 : relay_world Logging) :
  log_listener handle (map Some pre) w = (Return Blocked, w1) ->
  log_listener handle (map Some pre ++ queue) w = log_listener handle queue w1
  /\ log_listener handle (map Some pre ++ None :: queue) w
     = (Return (Returned queue),
        {| log_trace := log_trace w1 ++ [Queue_get None]; logging := logging w1 |}).
Proof.
  intros H. split; [exact (log_listener_app pre queue w w1 H)|].
  rewrite (log_listener_app pre _ w w1 H). reflexivity.
Qed.

End RelayMoreFacts.

(** ** The executor and the listener it starts *)

Section ExecutorAndRelay.

Context {Input Result Initializer Arg Logging : Type}.

Variable env : environment Input.
Variable use_threads : bool.
Variable max_workers : Z.
Variable tqdm_kwargs : Kwargs.
Variable task_initializer : option Initializer.
Variable task : Input -> completion Result.
Variable task_arguments : list Input.
Variable task_finished : Result -> tqdm -> tqdm * option BaseException.
Variable handle : string -> LogRecord -> Logging -> Logging * option BaseException.

(** What the control thread puts on the log queue: the sentinel, once, when
    it has created the pool and the call comes to an end, and nothing
    otherwise. *)
Lemma queue_puts_run (task_initargs : option (list Arg)) :
  queue_puts (trace (run (exec_progress_pool env use_threads max_workers tqdm_kwargs
                            task_initializer task_initargs task task_arguments
                            task_finished)).2)
  = if creates_pool task_initargs max_workers
       && ends (run (exec_progress_pool env use_threads max_workers tqdm_kwargs
                       task_initializer task_initargs task task_arguments
                       task_finished)).1
    then [None] else [].
Proof.
  destruct (creates_pool task_initargs max_workers) eqn:Hc.
  - apply creates_pool_true in Hc as (args & -> & Hw).
    destruct (exec_progress_pool_run env use_threads max_workers tqdm_kwargs
                task_initializer task task_arguments task_finished args Hw)
      as (calls & last & o & Hq & He & -> & ->).
    unfold queue_puts. rewrite !omap_app.
    assert (Hcalls : omap (fun ev : event Input Result Initializer Arg =>
                             match ev with Queue_put_nowait obj => Some obj | _ => None end)
                       calls = []).
    { clear -Hq. induction Hq as [|ev calls Hev _ IH]; [reflexivity|].
      cbn. rewrite IH. destruct ev; try reflexivity; destruct Hev. }
    rewrite Hcalls. destruct He as [(e & Hr & ->)|[-> ->]]; [|reflexivity].
    destruct last; try discriminate Hr; exit_cases e; reflexivity.
  - rewrite (exec_progress_pool_no_pool _ _ _ _ _ _ _ _ _ Hc). reflexivity.
Qed.

(** X11.  The listener of a call that creates the pool and returns or
    raises always comes to its end.  Let the workers' records [recs] reach
    the queue ahead of what the control thread puts on it, and [late] after
    (the sentinel is put before the pool is closed and joined): the
    listener, whose logging system raises nothing but instances of
    [Exception], hands the records of [recs] to their loggers and returns,
    and leaves [late] unread. *)
Theorem listener_is_told_to_stop (args : list Arg)
    (recs : list pyobject) (late : list (option pyobject)) (lw : relay_world Logging) :
  (1 <= max_workers)%Z ->
  raises_only_Exception handle ->
  let (o, w) := run (exec_progress_pool env use_threads max_workers tqdm_kwargs
                       task_initializer (Some args) task task_arguments task_finished) in
  ends o = true ->
  let (lo, lw') := log_listener handle (map Some recs ++ queue_puts (trace w) ++ late) lw in
  lo = Return (Returned late)
  /\ dispatched (log_trace lw') = dispatched (log_trace lw) ++ records recs.
Proof.
  intros Hw Hexc. pose proof (queue_puts_run (Some args)) as Hputs.
  cbn [creates_pool] in Hputs. rewrite (at_least_one_worker _ Hw) in Hputs.
  destruct (run _) as [o w]. cbn [fst snd negb andb] in Hputs. intros Hend.
  rewrite Hputs, Hend. cbn [app].
  destruct (log_listener_spec handle (map Some recs ++ None :: late) lw Hexc)
    as (Ho & Hd & _).
  rewrite after_sentinel_app in Ho. rewrite before_sentinel_app in Hd.
  destruct (log_listener handle (map Some recs ++ None :: late) lw) as [lo lw'].
  auto.
Qed.

(** X12.  A call with [task_initargs=None] starts the listener and raises
    without ever putting the sentinel on the queue: the listener, whatever
    records reach it, does not return.  It is left waiting in
    [queue.get()]. *)
Theorem listener_is_left_waiting
    (recs : list pyobject) (lw : relay_world Logging) :
  raises_only_Exception handle ->
  let (o, w) := run (exec_progress_pool (Arg := Arg) env use_threads max_workers
                       tqdm_kwargs task_initializer None task task_arguments
                       task_finished) in
  existsb is_Thread_start (trace w) = true
  /\ (log_listener handle (map Some recs ++ queue_puts (trace w)) lw).1
     = Return Blocked.
Proof.
  intros Hexc. cbn. rewrite app_nil_r. split; [reflexivity|].
  destruct (log_listener_spec handle (map Some recs) lw Hexc) as (Ho & _ & _).
  rewrite after_sentinel_none in Ho. exact Ho.
Qed.


End ExecutorAndRelay.

(** ** More concrete runs *)

Module MoreRuns.

Import Scenario.



Lemma interrupt_after_k_completions_witness :
  (1 <= 4)%Z
  /\ sigint interrupted = Some 2
  /\ (forall x, In x (arrival interrupted task_arguments) -> exists r, square x = inl r)
  /\ (forall r p, (update_page r p).2 = None)
  /\ let (o, w) := call interrupted no_initargs square update_page in
     o = Raise KeyboardInterrupt
     /\ map inl (delivered_results (trace w)) = ([inl 25; inl 16] : list (completion nat))
     /\ occurrences is_task_finished_call (trace w) = 2.
Proof.
  assert (Hw : (1 <= 4)%Z) by lia.
  assert (Hsig : sigint interrupted = Some 2) by reflexivity.
  assert (Htask : forall x, In x (arrival interrupted task_arguments) ->
                            exists r, square x = inl r)
    by (intros x _; eexists; reflexivity).
  assert (Hcb : forall r p, (update_page r p).2 = None) by reflexivity.
  repeat (split; [assumption|]).
  exact (interrupt_after_k_completions
           (Initializer := unit)
           interrupted false 4 five_pages None square task_arguments update_page
           ([] : list nat) 2 Hw Hsig Htask Hcb).
Defined.

Lemma no_task_arguments_witness :
  (1 <= 4)%Z
  /\ Permutation (arrival outside_pytest []) []
  /\ sigint outside_pytest = None
  /\ run (exec_progress_pool (Initializer := unit)
            outside_pytest true 4 resumed_at_3 None no_initargs
            square_exit_at_3 [] (raise_on_4 SystemExit))
     = (Return tt,
        {| trace := [Queue_new; Thread_new; Thread_start; tqdm_enter resumed_at_3;
                     Pool_new ThreadPool 4 None [log_queue];
                     Pool_imap_unordered [];
                     results_next None;
                     Queue_put_nowait None; Pool_close; Pool_join; tqdm_exit;
                     Thread_join];
           pbar := {| count := 3; disabled := false |} |}).
Proof.
  assert (Hw : (1 <= 4)%Z) by lia.
  assert (Hperm : Permutation (arrival outside_pytest []) []) by constructor.
  assert (Hsig : sigint outside_pytest = None) by reflexivity.
  repeat (split; [assumption|]).
  exact (no_task_arguments (Initializer := unit)
           outside_pytest true 4 resumed_at_3 None square_exit_at_3
           (raise_on_4 SystemExit) ([] : list nat) Hw Hperm Hsig).
Defined.

Lemma log_listener_killed_by_non_Exception_witness :
  let w1 := {| log_trace := [Queue_get (Some (ARecord rec1)); getLogger "ocrmypdf";
                             Logger_handle "ocrmypdf" rec1];
               logging := ["page 1"] |} in
  log_listener handle_or_exit (map Some [ARecord rec1]) start = (Return Blocked, w1)
  /\ (handle_or_exit (name rec4) rec4 (logging w1)).2 = Some SystemExit
  /\ is_Exception SystemExit = false
  /\ log_listener handle_or_exit
       (map Some [ARecord rec1] ++ Some (ARecord rec4) :: [Some (ARecord rec3); None])
       start
     = (Raise SystemExit,
        {| log_trace := [Queue_get (Some (ARecord rec1)); getLogger "ocrmypdf";
                         Logger_handle "ocrmypdf" rec1;
                         Queue_get (Some (ARecord rec4)); getLogger "exit";
                         Logger_handle "exit" rec4];
           logging := ["page 1"] |}).
Proof.
  intros w1.
  assert (H : log_listener handle_or_exit (map Some [ARecord rec1]) start
              = (Return Blocked, w1)) by reflexivity.
  split; [exact H|]. repeat (split; [reflexivity|]).
  exact (log_listener_killed_by_non_Exception handle_or_exit [ARecord rec1] rec4
           SystemExit [Some (ARecord rec3); None] start w1 H eq_refl eq_refl).
Defined.

Lemma log_listener_resumes_witness :
  let w1 := {| log_trace := [Queue_get (Some (ARecord rec1)); getLogger "ocrmypdf";
                             Logger_handle "ocrmypdf" rec1;
                             Queue_get (Some (ARecord rec2)); getLogger "broken";
                             Logger_handle "broken" rec2;
                             stderr_print "Logging problem";
                             print_exc (Exc (RuntimeError "handler failed"))];
               logging := ["page 1"] |} in
  log_listener handle (map Some [ARecord rec1; ARecord rec2]) start = (Return Blocked, w1)
  /\ log_listener handle (map Some [ARecord rec1; ARecord rec2]
                          ++ [Some (ARecord rec3); None]) start
     = log_listener handle [Some (ARecord rec3); None] w1
  /\ log_listener handle (map Some [ARecord rec1; ARecord rec2]
                          ++ None :: [Some (ARecord rec3); None]) start
     = (Return (Returned [Some (ARecord rec3); None]),
        {| log_trace := log_trace w1 ++ [Queue_get None]; logging := logging w1 |}).
Proof.
  intros w1.
  assert (H : log_listener handle (map Some [ARecord rec1; ARecord rec2]) start
              = (Return Blocked, w1)) by reflexivity.
  split; [exact H|].
  exact (log_listener_resumes handle [ARecord rec1; ARecord rec2]
           [Some (ARecord rec3); None] start w1 H).
Defined.

Lemma listener_is_told_to_stop_witness :
  (1 <= 4)%Z
  /\ raises_only_Exception handle
  /\ let (o, w) := call outside_pytest no_initargs square_but_3 update_page in
     ends o = true
     /\ let (lo, lw') := log_listener handle
                           (map Some messages ++ queue_puts (trace w)
                            ++ [Some (ARecord rec1)]) start in
        lo = Return (Returned [Some (ARecord rec1)])
        /\ dispatched (log_trace lw')
           = [("ocrmypdf", rec1); ("broken", rec2); ("ocrmypdf.exec", rec3)].
Proof.
  assert (Hw : (1 <= 4)%Z) by lia.
  assert (Hexc : raises_only_Exception handle).
  { intros logger r s e. unfold handle.
    destruct (bool_decide (logger = "broken")); simpl; intros [= <-]; reflexivity. }
  split; [exact Hw|]. split; [exact Hexc|].
  pose proof (listener_is_told_to_stop (Initializer := unit)
                outside_pytest false 4 five_pages None square_but_3 task_arguments
                update_page handle ([] : list nat) messages [Some (ARecord rec1)] start
                Hw Hexc) as H.
  unfold call, call_with, no_initargs. destruct (run _) as [o w] eqn:E.
  vm_compute in E. injection E as <- <-.
  split; [reflexivity|]. exact (H eq_refl).
Defined.

Lemma listener_is_left_waiting_witness :
  raises_only_Exception handle
  /\ let (o, w) := call outside_pytest None square update_page in
     existsb is_Thread_start (trace w) = true
     /\ (log_listener handle (map Some messages ++ queue_puts (trace w)) start).1
        = Return Blocked.
Proof.
  assert (Hexc : raises_only_Exception handle).
  { intros logger r s e. unfold handle.
    destruct (bool_decide (logger = "broken")); simpl; intros [= <-]; reflexivity. }
  split; [exact Hexc|].
  exact (listener_is_left_waiting (Initializer := unit) (Arg := nat)
           outside_pytest false 4 five_pages None square task_arguments update_page
           handle messages start Hexc).
Defined.

Lemma cleanup_when_the_call_ends_witness :
  (1 <= 4)%Z
  /\ let (o, w) := call outside_pytest no_initargs square_but_3 update_page in
     ends o = true
     /\ o = Raise (Exc ValueError)
     /\ occurrences is_sentinel_put (trace w) = 1
     /\ occurrences is_Pool_close (trace w) = 1
     /\ occurrences is_Pool_join (trace w) = 1
     /\ occurrences is_tqdm_exit (trace w) = 1
     /\ exists before,
          trace w = before ++ [Queue_put_nowait None; Pool_close; Pool_join; tqdm_exit]
                           ++ epilogue o.
Proof.
  assert (Hw : (1 <= 4)%Z) by lia.
  split; [exact Hw|].
  pose proof (cleanup_when_the_call_ends (Initializer := unit)
                outside_pytest false 4 five_pages None square_but_3 task_arguments
                update_page ([] : list nat) Hw) as H.
  unfold call, call_with, no_initargs. destruct (run _) as [o w] eqn:E.
  vm_compute in E. injection E as <- <-.
  split; [reflexivity|]. split; [reflexivity|].
  exact (proj2 (H eq_refl)).
Defined.

(** The task that calls [sys.exit()] on the input 3: the four other
    results are delivered, and the call waits for the fifth for ever. *)
Lemma lost_task_blocks_the_call_witness :
  (1 <= 4)%Z
  /\ sigint outside_pytest = None
  /\ In 3 (arrival outside_pytest task_arguments)
  /\ sent_back (square_exit_at_3 3) = false
  /\ deliveries outside_pytest square_exit_at_3 task_arguments = map inl [25; 16; 4; 1]
  /\ (forall r p, (update_page r p).2 = None)
  /\ call outside_pytest no_initargs square_exit_at_3 update_page
     = (Never,
        {| trace := [Queue_new; Thread_new; Thread_start; tqdm_enter five_pages;
                     Pool_new ProcessPool 4 None [log_queue];
                     Pool_imap_unordered [1; 2; 3; 4; 5];
                     results_next (Some (inl 25)); task_finished_call 25 None;
                     results_next (Some (inl 16)); task_finished_call 16 None;
                     results_next (Some (inl 4)); task_finished_call 4 None;
                     results_next (Some (inl 1)); task_finished_call 1 None;
                     results_next_blocks];
           pbar := {| count := 4; disabled := false |} |})
  /\ let (o, w) := call outside_pytest no_initargs square_exit_at_3 update_page in
     o = Never
     /\ delivered_results (trace w) = [25; 16; 4; 1]
     /\ existsb is_sentinel_put (trace w) = false
     /\ existsb is_pool_shutdown (trace w) = false
     /\ existsb is_tqdm_exit (trace w) = false
     /\ existsb is_Thread_join (trace w) = false.
Proof.
  assert (Hw : (1 <= 4)%Z) by lia.
  assert (Hsig : sigint outside_pytest = None) by reflexivity.
  assert (Hx : In 3 (arrival outside_pytest task_arguments)) by (simpl; tauto).
  assert (Hlost : sent_back (square_exit_at_3 3) = false) by reflexivity.
  assert (Hdel : deliveries outside_pytest square_exit_at_3 task_arguments
                 = map inl [25; 16; 4; 1]) by reflexivity.
  assert (Hcb : forall r p, (update_page r p).2 = None) by reflexivity.
  repeat (split; [assumption|]).
  split; [reflexivity|].
  pose proof (lost_task_blocks_the_call (Initializer := unit)
                outside_pytest false 4 five_pages None square_exit_at_3 task_arguments
                update_page ([] : list nat) [25; 16; 4; 1] 3
                Hw Hsig Hx Hlost Hdel Hcb) as H.
  unfold call, call_with, no_initargs. destruct (run _) as [o w].
  destruct H as (Ho & _ & Hd & Hs & Hp & Ht & Hj).
  repeat split; assumption.
Defined.


End MoreRuns.
